(** * scmrepo.git.lfs.fetch: a shallow embedding and its properties

    The module decides which Git LFS objects a set of revisions needs and
    where to fetch them from.  The embedding follows
    [src/scmrepo/git/lfs/fetch.py] function by function:

    - [get_fetch_url]     layered lookup of the LFS endpoint;
    - [_filter_paths]     include / exclude filtering with [fnmatch.filter];
    - [_collect_objects]  the generator walking one revision;
    - [fetch]             the orchestrator.

    Calls to collaborators (configuration, repository, storage) are
    recorded in a trace, exceptions are values, [try ... except] is a
    combinator that selects on the exception class, and a generator is a
    computation whose trace also records its [yield] statements. *)

From Stdlib Require Import String Ascii ZArith List Bool Lia.
From stdpp Require Import base option list gmap sets strings countable.

Local Open Scope string_scope.
Local Open Scope list_scope.

(** ** Python values *)

(** [bytes] objects: sequences of 8-bit characters. *)
Definition bytes := string.

(** Modelled from the spec: [scmrepo/git/lfs/pointer.py] is not part of the
    sources at hand.  A [Pointer] is identified by its content identifier
    and its byte size; equality and hashing use these two fields only. *)
Record Pointer := mkPointer { p_oid : string; p_size : Z }.

#[global] Instance Pointer_eq_dec : EqDecision Pointer.
Proof. solve_decision. Defined.

#[global] Instance Pointer_countable : Countable Pointer :=
  inj_countable' (fun p => (p_oid p, p_size p))
                 (fun '(o, s) => mkPointer o s)
                 (fun p => match p with mkPointer _ _ => eq_refl end).

(** The exception classes the module raises, catches or lets through:
    builtins, and [SCMError] and [InvalidRemote] of [scmrepo.exceptions]. *)
Inductive exn :=
| KeyError
| FileNotFoundError
| OSError
| ValueError
| SCMError
| InvalidRemote
| AssertionError
| OtherError (name : string).

#[global] Instance exn_eq_dec : EqDecision exn.
Proof. solve_decision. Defined.

Definition same_class (e cls : exn) : bool :=
  match e, cls with
  | KeyError, KeyError | FileNotFoundError, FileNotFoundError | OSError, OSError
  | ValueError, ValueError | SCMError, SCMError | InvalidRemote, InvalidRemote
  | AssertionError, AssertionError => true
  | OtherError n, OtherError m => String.eqb n m
  | _, _ => false
  end.

(** [isinstance(e, cls)]: [FileNotFoundError] derives from [OSError]
    (builtins) and [InvalidRemote] from [SCMError] (scmrepo.exceptions). *)
Definition isinstance (e cls : exn) : bool :=
  match e, cls with
  | FileNotFoundError, OSError => true
  | InvalidRemote, SCMError => true
  | _, _ => same_class e cls
  end.

Inductive result (A : Type) :=
| Ok (a : A)
| Raise (e : exn).
Arguments Ok {A} a.
Arguments Raise {A} e.

(** Truthiness of an [Optional[str]]: [None] and [""] are falsy. *)
Definition truthy_str (o : option string) : bool :=
  match o with
  | Some "" => false
  | Some _ => true
  | None => false
  end.

(** Truthiness of an [Optional[list[str]]]: [None] and [[]] are falsy. *)
Definition truthy_list {A} (o : option (list A)) : bool :=
  match o with
  | Some (_ :: _) => true
  | _ => false
  end.

(** ** Collaborators *)

(** Modelled from the spec: the classes of [scmrepo.git] behind [scm]
    ([Git], [Config], the file system of a revision, the LFS storage) are
    not part of the sources at hand; each is the contract the module uses
    it through.

    A configuration store: [Config.get(section, name)] gives the value of
    a key and raises [KeyError] on an absent key.  Sections are tuples of
    strings. *)
Abbreviation Config := (gmap (list string * string) string).

(** The object a [Config] variable holds has neither [__bool__] nor
    [__len__]: it is truthy whatever it contains. *)
Definition truthy_config (c : option Config) : bool :=
  match c with
  | Some _ => true
  | None => false
  end.

(** Modelled from the spec: what [fs.open(path, "rb", raw=True)] gives,
    wrapped in an [io.BufferedReader]: a peek at its first bytes and its
    content, each of which can fail. *)
Record Reader := {
  peek : Z -> result bytes;
  read : result bytes;
}.

(** Modelled from the spec: the file system of one revision, [find]
    enumerating the paths under a root and [open] giving the raw content of
    a path or failing. *)
Record FS := {
  find : string -> list string;
  fs_open : string -> result Reader;
}.

(** Modelled from the spec: the repository object [scm], with its
    large-object storage.  Each field is one method the module calls, with
    the one failure the module handles for it. *)
Record Git := {
  root_dir : string;
  (* scm.get_config() *)
  git_config : Config;
  (* scm.get_config(path): a missing file raises FileNotFoundError *)
  config_files : gmap string Config;
  (* scm.active_branch_remote(): no tracked remote raises SCMError *)
  tracked_remote : option string;
  (* scm.get_remote_url(name): an unknown remote raises InvalidRemote *)
  remote_urls : gmap string string;
  get_fs : string -> FS;
  (* scm.check_attr(path, attr, source=rev) *)
  check_attr : string -> string -> string -> option string;
  (* scm.lfs_storage.exists(pointer) *)
  lfs_exists : Pointer -> bool;
  (* scm.lfs_storage.fetch(url, objects) *)
  lfs_fetch : string -> gset Pointer -> result unit;
}.

(** ** Traces and the exception monad *)

Inductive ConfigSource := Primary | Overlay.

#[global] Instance ConfigSource_eq_dec : EqDecision ConfigSource.
Proof. solve_decision. Defined.

Inductive Event :=
| EvGetConfig (path : option string)
| EvConfigGet (src : ConfigSource) (section : list string) (name : string)
| EvActiveBranchRemote
| EvGetRemoteUrl (remote : string)
| EvGetFs (rev : string)
| EvFind (rev root : string)
| EvCheckAttr (path attr source : string)
| EvOpen (rev path : string)
| EvPeek (rev path : string)
| EvLoad (rev path : string)
| EvExists (p : Pointer)
| EvStorageFetch (url : string) (objects : gset Pointer)
| EvYield (p : Pointer).

#[global] Instance Event_eq_dec : EqDecision Event.
Proof. solve_decision. Defined.

(** A computation gives the calls it made, in order, and either a value
    or the exception that ended it.  [EvYield p] is not a call: it marks a
    [yield p] statement in the run of a generator, and the loop that
    consumes the generator puts the run of its body in its place. *)
Definition M (A : Type) : Type := (list Event * result A)%type.

Definition ret {A} (a : A) : M A := ([], Ok a).
Definition raise {A} (e : exn) : M A := ([], Raise e).
Definition call {A} (ev : Event) (r : result A) : M A := ([ev], r).

Definition bind {A B} (m : M A) (f : A -> M B) : M B :=
  match m with
  | (t, Ok a) => let '(t', r) := f a in (t ++ t', r)
  | (t, Raise e) => (t, Raise e)
  end.

Notation "'letM' x ':=' m 'in' k" := (bind m (fun x => k))
  (at level 10, x name, m at level 100, k at level 200, only parsing).

(** [try: m  except classes as e: handler e] *)
Definition try_except {A} (m : M A) (classes : list exn) (handler : exn -> M A) : M A :=
  match m with
  | (t, Raise e) =>
      if existsb (isinstance e) classes
      then let '(t', r) := handler e in (t ++ t', r)
      else (t, Raise e)
  | (t, Ok a) => (t, Ok a)
  end.

Definition trace {A} (m : M A) : list Event := fst m.
Definition outcome {A} (m : M A) : result A := snd m.

Definition of_option {A} (e : exn) (o : option A) : result A :=
  match o with
  | Some a => Ok a
  | None => Raise e
  end.

(** *** Collaborator calls *)

Definition get_config (scm : Git) (path : option string) : M Config :=
  call (EvGetConfig path)
    match path with
    | None => Ok (git_config scm)
    | Some p => of_option FileNotFoundError (config_files scm !! p)
    end.

Definition Config_get (src : ConfigSource) (c : Config)
    (section : list string) (name : string) : M string :=
  call (EvConfigGet src section name) (of_option KeyError (c !! (section, name))).

Definition active_branch_remote (scm : Git) : M string :=
  call EvActiveBranchRemote (of_option SCMError (tracked_remote scm)).

Definition get_remote_url (scm : Git) (remote : string) : M string :=
  call (EvGetRemoteUrl remote) (of_option InvalidRemote (remote_urls scm !! remote)).

(** [os.path.join(a, b)] of [posixpath]. *)
Fixpoint endswith_sep (a : string) : bool :=
  match a with
  | "" => false
  | String c "" => bool_decide (c = "/"%char)
  | String _ a' => endswith_sep a'
  end.

Definition os_path_join (a b : string) : string :=
  match b with
  | String "/" _ => b
  | _ => if bool_decide (a = "") || endswith_sep a then a +:+ b else a +:+ "/" +:+ b
  end.

(** ** [get_fetch_url] *)

Definition lfsconfig_path (scm : Git) : string := os_path_join (root_dir scm) ".lfsconfig".

Definition get_fetch_url (scm : Git) (remote : option string) : M string :=
  letM git_config := get_config scm None in
  (* check lfs.url (can be set in git config and .lfsconfig) *)
  letM r := try_except (letM u := Config_get Primary git_config ["lfs"] "url" in
                        ret (Some u))
              [KeyError] (fun _ => ret None) in
  match r with
  | Some url => ret url
  | None =>
  letM lfs_config := try_except (letM c := get_config scm (Some (lfsconfig_path scm)) in
                                 ret (Some c))
                       [FileNotFoundError] (fun _ => ret None) in
  letM r := match lfs_config with        (* if lfs_config: *)
       | Some c =>
           if truthy_config lfs_config
           then try_except (letM u := Config_get Overlay c ["lfs"] "url" in ret (Some u))
                  [KeyError] (fun _ => ret None)
           else ret None
       | None => ret None
       end in
  match r with
  | Some url => ret url
  | None =>
  (* current tracking-branch remote, or remote.lfsdefault, or "origin" *)
  letM remote := (if negb (truthy_str remote)
             then try_except (letM n := active_branch_remote scm in ret (Some n))
                    [SCMError] (fun _ => ret remote)
             else ret remote) in
  letM remote := (if negb (truthy_str remote)
             then try_except (letM n := Config_get Primary git_config ["remote"] "lfsdefault" in
                              ret (Some n))
                    [KeyError] (fun _ => ret (Some "origin"))
             else ret remote) in
  (* check remote.*.lfsurl (can be set in git config and .lfsconfig) *)
  match remote with
  | None => raise AssertionError         (* assert remote is not None *)
  | Some remote =>
  letM r := try_except (letM u := Config_get Primary git_config ["remote"; remote] "lfsurl" in
                        ret (Some u))
              [KeyError] (fun _ => ret None) in
  match r with
  | Some url => ret url
  | None =>
  letM r := match lfs_config with        (* if lfs_config: *)
       | Some c =>
           if truthy_config lfs_config
           then try_except (letM u := Config_get Overlay c ["remote"; remote] "lfsurl" in
                            ret (Some u))
                  [KeyError] (fun _ => ret None)
           else ret None
       | None => ret None
       end in
  match r with
  | Some url => ret url
  | None =>
  (* return default Git fetch URL for this remote *)
  get_remote_url scm remote
  end end end end end.

(** ** Regular expressions

    A backtracking matcher with the constructs [_ROOT_PATH_PREFIX_REGEX]
    is written with.  Alternatives are tried left to right and [*] is
    greedy, as in Python's [re]; a continuation receives every candidate
    end of a sub-match, so that a later failure backtracks into it. *)

Inductive regex :=
| ReBegin                               (* ^ *)
| ReEnd                                 (* $ *)
| ReChar (c : ascii)
| ReNotIn (cs : list ascii)             (* [^...] *)
| ReSeq (r1 r2 : regex)
| ReAlt (r1 r2 : regex)                 (* r1|r2 *)
| ReStar (r : regex)                    (* r* *)
| ReGroup (name : string) (r : regex).  (* (?P<name>r) *)

Record mstate := {
  ms_pos : nat;
  ms_rest : string;
  ms_groups : list (string * (nat * nat));
}.

Definition advance (st : mstate) (rest : string) : mstate :=
  {| ms_pos := S (ms_pos st); ms_rest := rest; ms_groups := ms_groups st |}.

Definition orelse {A} (a b : option A) : option A :=
  match a with
  | Some x => Some x
  | None => b
  end.

Definition newline : string := String (ascii_of_nat 10) "".

(** [r*], greedy: one more round of [r] first, then the rest of the
    pattern; a round that consumes nothing is not repeated. *)
Fixpoint star_loop (run : mstate -> (mstate -> option mstate) -> option mstate)
    (k : mstate -> option mstate) (fuel : nat) (st : mstate) : option mstate :=
  match fuel with
  | O => k st
  | S fuel' =>
      orelse
        (run st (fun st' =>
           if Nat.ltb (String.length (ms_rest st')) (String.length (ms_rest st))
           then star_loop run k fuel' st' else None))
        (k st)
  end.

Fixpoint re_run (r : regex) (st : mstate) (k : mstate -> option mstate) : option mstate :=
  match r with
  | ReBegin => if Nat.eqb (ms_pos st) 0 then k st else None
  | ReEnd =>
      (* without MULTILINE: at the end, or before a final newline *)
      if bool_decide (ms_rest st = "") || bool_decide (ms_rest st = newline)
      then k st else None
  | ReChar c =>
      match ms_rest st with
      | String c' rest => if bool_decide (c' = c) then k (advance st rest) else None
      | "" => None
      end
  | ReNotIn cs =>
      match ms_rest st with
      | String c' rest => if bool_decide (c' ∈ cs) then None else k (advance st rest)
      | "" => None
      end
  | ReSeq r1 r2 => re_run r1 st (fun st' => re_run r2 st' k)
  | ReAlt r1 r2 => orelse (re_run r1 st k) (re_run r2 st k)
  | ReStar r' => star_loop (re_run r') k (String.length (ms_rest st)) st
  | ReGroup name r' =>
      re_run r' st (fun st' =>
        k {| ms_pos := ms_pos st'; ms_rest := ms_rest st';
             ms_groups := (name, (ms_pos st, ms_pos st')) :: ms_groups st' |})
  end.

(** [pattern.match(s)]: the match object keeps the subject and the groups. *)
Definition re_match (r : regex) (s : string) : option (string * list (string * (nat * nat))) :=
  match re_run r {| ms_pos := 0; ms_rest := s; ms_groups := [] |} Some with
  | Some st => Some (s, ms_groups st)
  | None => None
  end.

Fixpoint assoc_group (name : string) (gs : list (string * (nat * nat))) : option (nat * nat) :=
  match gs with
  | [] => None
  | (n, span) :: gs' => if bool_decide (n = name) then Some span else assoc_group name gs'
  end.

(** [m.group(name)] *)
Definition group (m : string * list (string * (nat * nat))) (name : string) : option string :=
  match assoc_group name (snd m) with
  | Some (b, e) => Some (substring b (e - b) (fst m))
  | None => None
  end.

(** [re.compile(r"^(?P<prefix>[^*?\[]*(?:/|$))")] *)
Definition _ROOT_PATH_PREFIX_REGEX : regex :=
  ReSeq ReBegin
    (ReGroup "prefix"
       (ReSeq (ReStar (ReNotIn ["*"; "?"; "["]%char))
              (ReAlt (ReChar "/") ReEnd))).

(** ** String helpers *)

(** [s.lstrip("/")] *)
Fixpoint lstrip_sep (s : string) : string :=
  match s with
  | String "/" s' => lstrip_sep s'
  | _ => s
  end.

(** [s.rstrip("/")] *)
Fixpoint rstrip_sep (s : string) : string :=
  match s with
  | "" => ""
  | String c s' =>
      match rstrip_sep s' with
      | "" => if bool_decide (c = "/"%char) then "" else String c ""
      | t => String c t
      end
  end.

(** ** Root narrowing

    The head of [_collect_objects]: the traversal root and the include
    list handed to [_filter_paths]. *)
Definition narrow_root (include : option (list string)) : string * option (list string) :=
  match include with
  | Some [path] =>
      (* include and len(include) == 1 and (result := REGEX.match(path := include[0])) *)
      match re_match _ROOT_PATH_PREFIX_REGEX path with
      | Some result =>
          match group result "prefix" with
          | Some root =>
              if bool_decide (path = root) || bool_decide (path = rstrip_sep root +:+ "/**")
              then (root, Some [])
              else (root, include)
          | None => ("/", include)      (* the group takes part in every match *)
          end
      | None => ("/", include)
      end
  | _ => ("/", include)
  end.

(** *** The narrowing in words

    A wildcard is one of [*], [?] and [[].  The static prefix of a pattern
    without wildcard is the pattern; otherwise it is the part of the
    pattern up to and including the last separator before the first
    wildcard, and there is none when no separator comes before the first
    wildcard. *)
Definition is_wildcard (c : ascii) : bool :=
  bool_decide (c ∈ ["*"; "?"; "["]%char).

(** The longest prefix without wildcard. *)
Fixpoint static_run (p : string) : string :=
  match p with
  | "" => ""
  | String c p' => if is_wildcard c then "" else String c (static_run p')
  end.

(** The part of [r] up to and including its last separator. *)
Fixpoint upto_last_sep (r : string) : option string :=
  match r with
  | "" => None
  | String c r' =>
      match upto_last_sep r' with
      | Some q => Some (String c q)
      | None => if bool_decide (c = "/"%char) then Some "/" else None
      end
  end.

(** The length of the match of [_ROOT_PATH_PREFIX_REGEX], read off the
    backtracking: past a character that is no wildcard if the rest matches,
    else after that character if it is a separator. *)
Fixpoint prefix_len (p : string) : option nat :=
  match p with
  | "" => Some O
  | String c p' =>
      if is_wildcard c then None
      else match prefix_len p' with
           | Some m => Some (S m)
           | None => if bool_decide (c = "/"%char) then Some 1%nat else None
           end
  end.

Definition static_prefix (p : string) : option string :=
  if bool_decide (static_run p = p) then Some p else upto_last_sep (static_run p).

Definition narrow_root_spec (include : option (list string)) : string * option (list string) :=
  match include with
  | Some [p] =>
      match static_prefix p with
      | Some root =>
          (root,
           if bool_decide (p = root) || bool_decide (p = rstrip_sep root +:+ "/**")
           then Some [] else Some [p])
      | None => ("/", Some [p])
      end
  | _ => ("/", include)
  end.

(** [p] has a separator. *)
Fixpoint has_sep (p : string) : bool :=
  match p with
  | "" => false
  | String c p' => bool_decide (c = "/"%char) || has_sep p'
  end.

(** The root in the words of the specification: the longest prefix without
    wildcard that ends with a separator, or the pattern itself if it has
    no separator. *)
Definition claimed_root (p : string) : string :=
  if has_sep p then default "" (upto_last_sep (static_run p)) else p.

(** ** A shell-glob matcher

    [fnmatch] belongs to the Python library.  The functions of this module
    take the matcher as a parameter; [glob_match] is an instance with
    fnmatch's constructs ([*], [?], [[seq]], [[!seq]], ranges) on which
    examples run. *)

Inductive glob_token :=
| GStar
| GAny
| GLit (c : ascii)
| GClass (negated : bool) (items : list (ascii * ascii)).

(** The items of a bracket expression up to its closing bracket, and the
    pattern that follows; [None] if the bracket is never closed. *)
Fixpoint glob_class (first : bool) (p : string) : option (list (ascii * ascii) * string) :=
  match p with
  | "" => None
  | String c p' =>
      if bool_decide (c = "]"%char) && negb first then Some ([], p')
      else
        match p' with
        | String "-" (String hi p'') =>
            if bool_decide (hi = "]"%char)
            then match glob_class false p' with
                 | Some (items, q) => Some ((c, c) :: items, q)
                 | None => None
                 end
            else match glob_class false p'' with
                 | Some (items, q) => Some ((c, hi) :: items, q)
                 | None => None
                 end
        | _ => match glob_class false p' with
               | Some (items, q) => Some ((c, c) :: items, q)
               | None => None
               end
        end
  end.

Fixpoint glob_tokens (fuel : nat) (p : string) : list glob_token :=
  match fuel, p with
  | S fuel', String c p' =>
      if bool_decide (c = "*"%char) then GStar :: glob_tokens fuel' p'
      else if bool_decide (c = "?"%char) then GAny :: glob_tokens fuel' p'
      else if bool_decide (c = "["%char) then
        let '(negated, body) :=
          match p' with
          | String "!" b => (true, b)
          | _ => (false, p')
          end in
        match glob_class true body with
        | Some (items, q) => GClass negated items :: glob_tokens fuel' q
        | None => GLit c :: glob_tokens fuel' p'
        end
      else GLit c :: glob_tokens fuel' p'
  | _, _ => []
  end.

Definition in_range (c : ascii) (r : ascii * ascii) : bool :=
  (nat_of_ascii (fst r) <=? nat_of_ascii c)%nat && (nat_of_ascii c <=? nat_of_ascii (snd r))%nat.

Fixpoint glob_run (ts : list glob_token) (name : string) : bool :=
  match ts with
  | [] => bool_decide (name = "")
  | GStar :: ts' =>
      (fix skip (name : string) : bool :=
         glob_run ts' name ||
         match name with
         | String _ name' => skip name'
         | "" => false
         end) name
  | GAny :: ts' =>
      match name with
      | String _ name' => glob_run ts' name'
      | "" => false
      end
  | GLit c :: ts' =>
      match name with
      | String c' name' => bool_decide (c' = c) && glob_run ts' name'
      | "" => false
      end
  | GClass negated items :: ts' =>
      match name with
      | String c' name' => xorb negated (existsb (in_range c') items) && glob_run ts' name'
      | "" => false
      end
  end.

Definition glob_match (name pat : string) : bool :=
  glob_run (glob_tokens (String.length pat) pat) name.

(** ** Loops and generators *)

(** [for x in l: s = body(s, x)], stopping at the first exception. *)
Fixpoint for_each {A S} (l : list A) (body : S -> A -> M S) (s : S) : M S :=
  match l with
  | [] => ret s
  | x :: l' => letM s' := body s x in for_each l' body s'
  end.

(** [yield p] inside a generator. *)
Definition yield_ (p : Pointer) : M unit := ([EvYield p], Ok tt).

(** The consumer's view of the run of a generator: calls happen as the
    generator advances, the loop body runs at each [yield]; an exception
    of the body ends the loop there and the generator is not resumed. *)
Fixpoint consume {S} (t : list Event) (body : S -> Pointer -> M S) (s : S) : M S :=
  match t with
  | [] => ret s
  | EvYield p :: t' => letM s' := body s p in consume t' body s'
  | ev :: t' => letM _ := call ev (Ok tt) in consume t' body s
  end.

(** [for p in g: s = body(s, p)] for a generator [g]. *)
Definition for_gen {S} (g : M unit) (body : S -> Pointer -> M S) (s : S) : M S :=
  letM s' := consume (trace g) body s in
  match outcome g with
  | Ok _ => ret s'
  | Raise e => raise e
  end.

(** The pointers a run yielded, in order. *)
Definition yields (t : list Event) : list Pointer :=
  omap (fun ev => match ev with EvYield p => Some p | _ => None end) t.

Section Fetch.

(** [fnmatch.fnmatchcase(name, pat)] of the Python library. *)
Variable fnmatchcase : string -> string -> bool.

(** Modelled from the spec: [HEADERS] and [Pointer.load] come from
    [scmrepo/git/lfs/pointer.py], which is not part of the sources at
    hand: a fixed set of recognised byte-prefix signatures, and a parse
    routine from a reader to a [Pointer] that fails on malformed input. *)
Variable HEADERS : list bytes.
Variable Pointer_load : Reader -> result Pointer.

(** [fnmatch.filter(names, pat)] on a POSIX system. *)
Definition fnmatch_filter (names : list string) (pat : string) : list string :=
  List.filter (fun name => fnmatchcase name pat) names.

(** *** [_filter_paths]

    The generator makes no call; it is the list of what it yields, in
    the iteration order of the set. *)
Definition _filter_paths (paths : list string)
    (include exclude : option (list string)) : list string :=
  let filtered : gset string := ∅ in
  let filtered :=
    if truthy_list include
    then foldl (fun acc pattern => acc ∪ list_to_set (fnmatch_filter paths pattern))
               filtered (default [] include)
    else filtered ∪ list_to_set paths in
  let filtered :=
    if truthy_list exclude
    then foldl (fun acc pattern => acc ∖ list_to_set (fnmatch_filter paths pattern))
               filtered (default [] exclude)
    else filtered in
  elements filtered.

(** The [try] block of [_collect_objects] for one candidate. *)
Definition read_candidate (fs : FS) (rev path : string) : M unit :=
  letM fobj := call (EvOpen rev path) (fs_open fs path) in
  letM data := call (EvPeek rev path) (peek fobj 100) in
  if existsb (fun header => String.prefix header data) HEADERS
  then letM pointer := call (EvLoad rev path) (Pointer_load fobj) in yield_ pointer
  else ret tt.

(** *** [_collect_objects] *)
Definition _collect_objects (scm : Git) (rev : string)
    (include exclude : option (list string)) : M unit :=
  letM fs := call (EvGetFs rev) (Ok (get_fs scm rev)) in
  let '(root, include) := narrow_root include in
  letM paths := call (EvFind rev root) (Ok (find fs root)) in
  for_each (_filter_paths paths include exclude)
    (fun _ path =>
       let check_path := lstrip_sep path in
       letM attr := call (EvCheckAttr check_path "filter" rev)
                         (Ok (check_attr scm check_path "filter" rev)) in
       if bool_decide (attr = Some "lfs")
       then try_except (read_candidate fs rev path)
              [ValueError; OSError] (fun _ => ret tt)
       else ret tt)
    tt.

(** *** [fetch]

    The progress callback is handed to the storage unchanged and is left
    out. *)

(** [objects.update(pointer ... if not scm.lfs_storage.exists(pointer))],
    one pointer at a time. *)
Definition keep_missing (scm : Git) (objects : gset Pointer) (pointer : Pointer)
    : M (gset Pointer) :=
  letM present := call (EvExists pointer) (Ok (lfs_exists scm pointer)) in
  if negb present then ret (objects ∪ {[ pointer ]}) else ret objects.

Definition fetch (scm : Git) (revs : option (list string)) (remote : option string)
    (include exclude : option (list string)) : M unit :=
  let revs := if negb (truthy_list revs) then ["HEAD"] else default [] revs in
  letM objects :=
    for_each revs
      (fun objects rev =>
         for_gen (_collect_objects scm rev include exclude) (keep_missing scm) objects)
      ∅ in
  if bool_decide (objects = ∅) then ret tt
  else
    letM url := try_except (get_fetch_url scm remote) [InvalidRemote]
                  (fun e => if truthy_str remote
                            then ret (default "" remote)   (* a raw Git remote *)
                            else raise e) in
    call (EvStorageFetch url objects) (lfs_fetch scm url objects).

End Fetch.

(** ** The endpoint layers, as the specification lists them *)

(** The overlay configuration: the [.lfsconfig] file of the repository,
    if it exists. *)
Definition overlay (scm : Git) : option Config :=
  config_files scm !! lfsconfig_path scm.

Definition overlay_get (scm : Git) (section : list string) (name : string) : option string :=
  match overlay scm with
  | Some c => c !! (section, name)
  | None => None
  end.

(** The remote name: the caller's, else the tracked remote of the active
    branch, else [remote.lfsdefault] of the primary configuration, else
    ["origin"]. *)
Definition resolved_remote (scm : Git) (remote : option string) : string :=
  match remote with
  | Some (String c r) => String c r
  | _ =>
      match tracked_remote scm with
      | Some (String c r) => String c r
      | _ => default "origin" (git_config scm !! (["remote"], "lfsdefault"))
      end
  end.

(** The five layers, highest precedence first. *)
Definition layers (scm : Git) (remote : option string) : list (option string) :=
  let name := resolved_remote scm remote in
  [ git_config scm !! (["lfs"], "url");
    overlay_get scm ["lfs"] "url";
    git_config scm !! (["remote"; name], "lfsurl");
    overlay_get scm ["remote"; name] "lfsurl";
    remote_urls scm !! name ].

(** The call that consults each layer. *)
Definition layer_calls (scm : Git) (remote : option string) : list Event :=
  let name := resolved_remote scm remote in
  [ EvConfigGet Primary ["lfs"] "url";
    EvConfigGet Overlay ["lfs"] "url";
    EvConfigGet Primary ["remote"; name] "lfsurl";
    EvConfigGet Overlay ["remote"; name] "lfsurl";
    EvGetRemoteUrl name ].

Fixpoint first_present {A} (l : list (option A)) : option A :=
  match l with
  | [] => None
  | Some a :: _ => Some a
  | None :: l' => first_present l'
  end.

(** The same repository with [c] as its overlay file. *)
Definition with_overlay (scm : Git) (c : Config) : Git :=
  {| root_dir := root_dir scm;
     git_config := git_config scm;
     config_files := <[ lfsconfig_path scm := c ]> (config_files scm);
     tracked_remote := tracked_remote scm;
     remote_urls := remote_urls scm;
     get_fs := get_fs scm;
     check_attr := check_attr scm;
     lfs_exists := lfs_exists scm;
     lfs_fetch := lfs_fetch scm |}.

Definition is_overlay_get (ev : Event) : bool :=
  match ev with
  | EvConfigGet Overlay _ _ => true
  | _ => false
  end.

(** Calls of endpoint resolution, and the transfer call. *)
Definition is_resolution (ev : Event) : bool :=
  match ev with
  | EvGetConfig _ | EvConfigGet _ _ _ | EvActiveBranchRemote | EvGetRemoteUrl _ => true
  | _ => false
  end.

Definition is_transfer (ev : Event) : bool :=
  match ev with
  | EvStorageFetch _ _ => true
  | _ => false
  end.

(** The pointers [scm.lfs_storage.exists] was called with, in order. *)
Definition exists_calls (t : list Event) : list Pointer :=
  omap (fun ev => match ev with EvExists p => Some p | _ => None end) t.

(** The calls that settle the remote name. *)
Definition remote_calls (scm : Git) (remote : option string) : list Event :=
  if truthy_str remote then []
  else EvActiveBranchRemote ::
       (if truthy_str (tracked_remote scm) then []
        else [EvConfigGet Primary ["remote"] "lfsdefault"]).

(** The calls of a resolution, layer by layer: a layer's call is followed
    by the next layer's only when the layer has no value. *)
Definition resolution_trace (scm : Git) (remote : option string) : list Event :=
  let name := resolved_remote scm remote in
  let on_overlay (ev : Event) := if overlay scm is Some _ then [ev] else [] in
  [EvGetConfig None; EvConfigGet Primary ["lfs"] "url"] ++
  match git_config scm !! (["lfs"], "url") with
  | Some _ => []
  | None =>
      EvGetConfig (Some (lfsconfig_path scm)) ::
      on_overlay (EvConfigGet Overlay ["lfs"] "url") ++
      match overlay_get scm ["lfs"] "url" with
      | Some _ => []
      | None =>
          remote_calls scm remote ++
          EvConfigGet Primary ["remote"; name] "lfsurl" ::
          match git_config scm !! (["remote"; name], "lfsurl") with
          | Some _ => []
          | None =>
              on_overlay (EvConfigGet Overlay ["remote"; name] "lfsurl") ++
              match overlay_get scm ["remote"; name] "lfsurl" with
              | Some _ => []
              | None => [EvGetRemoteUrl name]
              end
          end
      end
  end.

(** ** Collection in closed form *)

Section CollectSpec.

Variable fnmatchcase : string -> string -> bool.
Variable HEADERS : list bytes.
Variable Pointer_load : Reader -> result Pointer.

(** The candidates of a revision: what [_filter_paths] gives on the
    paths found under the narrowed root. *)
Definition candidates (scm : Git) (rev : string)
    (include exclude : option (list string)) : list string :=
  let '(root, include') := narrow_root include in
  _filter_paths fnmatchcase (find (get_fs scm rev) root) include' exclude.

(** What opening, peeking and parsing one candidate comes to: a pointer,
    no pointer (no signature matches), or the first failure. *)
Definition candidate_outcome (fs : FS) (path : string) : result (option Pointer) :=
  match fs_open fs path with
  | Raise e => Raise e
  | Ok fobj =>
      match peek fobj 100 with
      | Raise e => Raise e
      | Ok data =>
          if existsb (fun header => String.prefix header data) HEADERS
          then match Pointer_load fobj with
               | Ok p => Ok (Some p)
               | Raise e => Raise e
               end
          else Ok None
      end
  end.

(** The pointer a candidate contributes when its failures are dropped. *)
Definition candidate_pointer (scm : Git) (rev path : string) : option Pointer :=
  if bool_decide (check_attr scm (lstrip_sep path) "filter" rev = Some "lfs")
  then match candidate_outcome (get_fs scm rev) path with
       | Ok (Some p) => Some p
       | _ => None
       end
  else None.

(** The body of the loop of [_collect_objects] for one candidate. *)
Definition visit (scm : Git) (rev path : string) : M unit :=
  let check_path := lstrip_sep path in
  letM attr := call (EvCheckAttr check_path "filter" rev)
                    (Ok (check_attr scm check_path "filter" rev)) in
  if bool_decide (attr = Some "lfs")
  then try_except (read_candidate HEADERS Pointer_load (get_fs scm rev) rev path)
         [ValueError; OSError] (fun _ => ret tt)
  else ret tt.

(** The collectors of a list of revisions, one after the other. *)
Definition collect_all (scm : Git) (revs : list string)
    (include exclude : option (list string)) : M unit :=
  for_each revs
    (fun _ rev => _collect_objects fnmatchcase HEADERS Pointer_load scm rev include exclude)
    tt.

End CollectSpec.

(** An I/O failure or a parse failure. *)
Definition io_or_parse_failure (e : exn) : bool :=
  isinstance e ValueError || isinstance e OSError.

(** [revs] of [fetch] after its default. *)
Definition effective_revs (revs : option (list string)) : list string :=
  if negb (truthy_list revs) then ["HEAD"] else default [] revs.

(** The pointers of [ps] that the storage does not hold, as a set. *)
Definition missing (scm : Git) (ps : list Pointer) : gset Pointer :=
  list_to_set (List.filter (fun p => negb (lfs_exists scm p)) ps).

(** The run of a generator seen through [keep_missing]: an existence check
    at each [yield]. *)
Definition checked (t : list Event) : list Event :=
  map (fun ev => match ev with EvYield p => EvExists p | _ => ev end) t.

(** The events a collector produces. *)
Definition is_collector_event (ev : Event) : bool :=
  match ev with
  | EvGetFs _ | EvFind _ _ | EvCheckAttr _ _ _ | EvOpen _ _ | EvPeek _ _ | EvLoad _ _
  | EvYield _ => true
  | _ => false
  end.

(** The endpoint [fetch] transfers from: the resolved URL, else the
    caller's remote taken as a raw endpoint, else the failure. *)
Definition endpoint (scm : Git) (remote : option string) : result string :=
  match first_present (layers scm remote) with
  | Some url => Ok url
  | None => if truthy_str remote then Ok (default "" remote) else Raise InvalidRemote
  end.

(** ** Example repositories *)

(** A reader over a blob held in memory. *)
Definition reader_of (content : bytes) : Reader :=
  {| peek := fun n => Ok (substring 0 (Z.to_nat n) content); read := Ok content |}.

Definition demo_headers : list bytes :=
  ["version https://git-lfs.github.com/spec/v1"; "version https://hawser.github.com/spec/v1"].

Definition demo_pointer : Pointer := mkPointer "abc" 10.

Definition demo_pointer_text : bytes :=
  "version https://git-lfs.github.com/spec/v1 oid abc size 10".

(** A parser that knows one pointer file and rejects the others. *)
Definition demo_load (r : Reader) : result Pointer :=
  match read r with
  | Ok content =>
      if bool_decide (content = demo_pointer_text) then Ok demo_pointer else Raise ValueError
  | Raise e => Raise e
  end.

(** A tree given by its blobs; a path without blob cannot be opened. *)
Definition tree_fs (blobs : list (string * result bytes)) : FS :=
  {| find := fun root =>
       List.filter (fun p => bool_decide (root = "/") || String.prefix root p)
                   (map fst blobs);
     fs_open := fun path =>
       match List.find (fun b => bool_decide (fst b = path)) blobs with
       | Some (_, Ok content) => Ok (reader_of content)
       | Some (_, Raise e) => Raise e
       | None => Raise FileNotFoundError
       end |}.

(** Revision [v1]: a pointer file, a plain file and a file outside [data/]. *)
Definition tree_v1 : FS :=
  tree_fs [ ("data/a.bin", Ok demo_pointer_text);
            ("data/b.txt", Ok "plain content");
            ("readme.md", Ok "plain content") ].

(** Revision [v2]: the same pointer under two paths, a file with the
    signature of a pointer and a malformed body, and a blob that cannot be
    read. *)
Definition tree_v2 : FS :=
  tree_fs [ ("data/a.bin", Ok demo_pointer_text);
            ("data/bad.bin", Ok "version https://git-lfs.github.com/spec/v1 oid");
            ("data/gone.bin", Raise OSError);
            ("other/c.bin", Ok demo_pointer_text) ].

Definition demo_repo (primary : Config) (files : gmap string Config)
    (tracked : option string) (urls : gmap string string) (held : Pointer -> bool) : Git :=
  {| root_dir := "/repo";
     git_config := primary;
     config_files := files;
     tracked_remote := tracked;
     remote_urls := urls;
     get_fs := fun rev => if bool_decide (rev = "v2") then tree_v2 else tree_v1;
     check_attr := fun path attr _ =>
       if bool_decide (attr = "filter") && negb (bool_decide (path = "readme.md"))
       then Some "lfs" else None;
     lfs_exists := held;
     lfs_fetch := fun _ _ => Ok tt |}.

(** Every layer of the endpoint has a value of its own. *)
Definition demo_scm : Git :=
  demo_repo
    {[ (["remote"; "up"], "lfsurl") := "https://up/primary-lfs" ]}
    {[ "/repo/.lfsconfig" :=
         ({[ (["lfs"], "url") := "https://overlay/lfs";
             (["remote"; "up"], "lfsurl") := "https://up/overlay-lfs" ]} : Config) ]}
    (Some "up")
    {[ "up" := "https://up/repo.git" ]}
    (fun _ => false).

(** No [.lfsconfig] file, the storage holds nothing. *)
Definition demo_plain : Git :=
  demo_repo ∅ ∅ None {[ "origin" := "https://origin/repo.git" ]} (fun _ => false).

(** The storage holds every pointer. *)
Definition demo_full : Git :=
  demo_repo ∅ ∅ None {[ "origin" := "https://origin/repo.git" ]} (fun _ => true).

(** No remote is configured. *)
Definition demo_bare : Git :=
  demo_repo ∅ ∅ None ∅ (fun _ => false).

(** What follows the star in [_ROOT_PATH_PREFIX_REGEX], and the end of the
    group. *)
Definition after_star (st : mstate) : option mstate :=
  re_run (ReAlt (ReChar "/") ReEnd) st
    (fun st' => Some {| ms_pos := ms_pos st'; ms_rest := ms_rest st';
                         ms_groups := ("prefix", (O, ms_pos st')) :: ms_groups st' |}).

(** ** Proof tools *)

(** Membership in a list written with [::] and [++]. *)
Ltac split_elem H :=
  repeat first
    [ rewrite elem_of_nil in H
    | rewrite elem_of_cons in H
    | rewrite elem_of_app in H ].

(** ** More repositories and arguments *)

(** The same repository with another tracked remote of the active branch. *)
Definition with_tracked (scm : Git) (tracked : option string) : Git :=
  {| root_dir := root_dir scm;
     git_config := git_config scm;
     config_files := config_files scm;
     tracked_remote := tracked;
     remote_urls := remote_urls scm;
     get_fs := get_fs scm;
     check_attr := check_attr scm;
     lfs_exists := lfs_exists scm;
     lfs_fetch := lfs_fetch scm |}.

(** The same repository with another transfer behaviour of the storage. *)
Definition with_transfer (scm : Git) (transfer : string -> gset Pointer -> result unit) : Git :=
  {| root_dir := root_dir scm;
     git_config := git_config scm;
     config_files := config_files scm;
     tracked_remote := tracked_remote scm;
     remote_urls := remote_urls scm;
     get_fs := get_fs scm;
     check_attr := check_attr scm;
     lfs_exists := lfs_exists scm;
     lfs_fetch := transfer |}.

(** An argument that is falsy counts as not given. *)
Definition given_str (o : option string) : option string :=
  if truthy_str o then o else None.

Definition given_list (o : option (list string)) : option (list string) :=
  if truthy_list o then o else None.

(** [lfs.url] is set in the primary configuration, and the branch tracks
    a remote with a URL of its own. *)
Definition demo_lfsurl : Git :=
  demo_repo
    {[ (["lfs"], "url") := "https://primary/lfs";
       (["remote"; "up"], "lfsurl") := "https://up/primary-lfs" ]}
    {[ "/repo/.lfsconfig" := ({[ (["lfs"], "url") := "https://overlay/lfs" ]} : Config) ]}
    (Some "up")
    {[ "up" := "https://up/repo.git" ]}
    (fun _ => false).

(** ** The command line

    The block under [if __name__ == "__main__"], with the positional
    arguments as [argparse] assigns them: [remote] is the first one when
    there is one, [refs] are the others; the defaults of the two
    [add_argument] calls stand for the absent ones.  [scm] is [Git(".")]. *)

Section CommandLine.

Variable fnmatchcase : string -> string -> bool.
Variable HEADERS : list bytes.
Variable Pointer_load : Reader -> result Pointer.

Definition args_remote (remote : option string) : string := default "origin" remote.

Definition args_refs (refs : list string) : list string :=
  match refs with
  | [] => ["HEAD"]
  | _ => refs
  end.

Definition main (scm : Git) (remote : option string) (refs : list string) : M unit :=
  fetch fnmatchcase HEADERS Pointer_load scm
    (Some (args_refs refs)) (Some (args_remote remote)) None None.

End CommandLine.

(** The same repository with other trees behind its revisions. *)
Definition with_fs (scm : Git) (trees : string -> FS) : Git :=
  {| root_dir := root_dir scm;
     git_config := git_config scm;
     config_files := config_files scm;
     tracked_remote := tracked_remote scm;
     remote_urls := remote_urls scm;
     get_fs := trees;
     check_attr := check_attr scm;
     lfs_exists := lfs_exists scm;
     lfs_fetch := lfs_fetch scm |}.

(** A tree with a blob whose opening fails with an exception that is
    neither an [OSError] nor a [ValueError]. *)
Definition tree_odd : FS :=
  tree_fs [ ("data/odd.bin", Raise (OtherError "RuntimeError")) ].

Definition demo_odd : Git := with_fs demo_plain (fun _ => tree_odd).

(** The storage refuses every transfer. *)
Definition demo_offline : Git :=
  with_transfer demo_scm (fun _ _ => Raise (OtherError "ConnectionError")).

(** * Properties *)

(** ** Endpoint resolution *)

(** The run of [get_fetch_url], in closed form. *)
Lemma get_fetch_url_run (scm : Git) (remote : option string) :
  get_fetch_url scm remote
  = (resolution_trace scm remote,
     of_option InvalidRemote (first_present (layers scm remote))).
Proof.
  unfold get_fetch_url, resolution_trace, layers, overlay_get, overlay,
    remote_calls, resolved_remote, active_branch_remote, Config_get,
    get_remote_url, get_config.
  remember (lfsconfig_path scm) as path eqn:Hp. clear Hp.
  destruct remote as [[|c r]|];
    destruct (tracked_remote scm) as [[|c' r']|];
    cbn;
    repeat match goal with
           | |- context [ git_config scm !! (["remote"], "lfsdefault") ] =>
               destruct (git_config scm !! (["remote"], "lfsdefault")); cbn
           | |- context [ ?m !! ?k ] => destruct (m !! k); cbn
           end; reflexivity.
Qed.

(** C1. [get_fetch_url] returns the first present value among [lfs.url]
    of the primary configuration, [lfs.url] of the overlay file,
    [remote.<name>.lfsurl] of the primary configuration,
    [remote.<name>.lfsurl] of the overlay file and the default fetch URL of
    the resolved remote name, and fails with [InvalidRemote] when all five
    are absent; the call that consults a layer occurs in the run only if
    every layer above it is absent. *)
Theorem get_fetch_url_precedence (scm : Git) (remote : option string) :
  outcome (get_fetch_url scm remote)
  = of_option InvalidRemote (first_present (layers scm remote))
  /\ forall (k : nat) (ev : Event),
       layer_calls scm remote !! k = Some ev ->
       ev ∈ trace (get_fetch_url scm remote) ->
       forall j : nat, (j < k)%nat -> layers scm remote !! j = Some None.
Proof.
  rewrite get_fetch_url_run. split; [reflexivity|].
  unfold trace, fst, resolution_trace, layers, layer_calls, remote_calls,
    overlay_get, overlay.
  remember (lfsconfig_path scm) as path eqn:Hp. clear Hp.
  remember (resolved_remote scm remote) as name eqn:Hn. clear Hn.
  intros k ev Hk Hin j Hj.
  destruct k as [|[|[|[|[|k]]]]]; cbn in Hk; try discriminate Hk; injection Hk as <-.
  all: destruct j as [|[|[|[|j]]]]; try lia.
  all: cbn [lookup list_lookup].
  all: destruct (git_config scm !! (["lfs"], "url")); [exfalso|];
       [ split_elem Hin; intuition discriminate | ].
  all: try reflexivity.
  all: destruct (config_files scm !! path) as [c|]; cbn in *;
       [ destruct (c !! (["lfs"], "url")); [exfalso|] | ];
       try reflexivity.
  all: try (split_elem Hin; intuition discriminate).
  all: destruct (truthy_str remote), (truthy_str (tracked_remote scm)); cbn in Hin.
  all: destruct (git_config scm !! (["remote"; name], "lfsurl")); [exfalso|];
       try reflexivity; try (split_elem Hin; intuition discriminate).
  all: try (destruct (c !! (["remote"; name], "lfsurl")); [exfalso|]);
       try reflexivity; try (split_elem Hin; intuition discriminate).
Qed.

Lemma overlay_with_overlay (scm : Git) (c : Config) :
  overlay (with_overlay scm c) = Some c.
Proof. unfold overlay, with_overlay, lfsconfig_path. cbn. apply lookup_insert_eq. Qed.

Lemma first_present_layers_no_overlay (scm : Git) (remote : option string) :
  (forall section name, overlay_get scm section name = None) ->
  first_present (layers scm remote)
  = first_present
      [ git_config scm !! (["lfs"], "url");
        git_config scm !! (["remote"; resolved_remote scm remote], "lfsurl");
        remote_urls scm !! resolved_remote scm remote ].
Proof.
  intros H. unfold layers. cbn. rewrite !H.
  destruct (git_config scm !! (["lfs"], "url")); reflexivity.
Qed.

(** C9. When the [.lfsconfig] file does not exist, [get_fetch_url] does not
    fail with [FileNotFoundError]: it gives what it gives on the repository
    with an empty [.lfsconfig], namely the first present value among the
    primary [lfs.url], the primary [remote.<name>.lfsurl] and the default
    URL of the remote, and no call reads a key of the overlay. *)
Theorem missing_overlay_is_empty (scm : Git) (remote : option string) :
  overlay scm = None ->
  outcome (get_fetch_url scm remote) = outcome (get_fetch_url (with_overlay scm ∅) remote)
  /\ outcome (get_fetch_url scm remote)
     = of_option InvalidRemote
         (first_present
            [ git_config scm !! (["lfs"], "url");
              git_config scm !! (["remote"; resolved_remote scm remote], "lfsurl");
              remote_urls scm !! resolved_remote scm remote ])
  /\ outcome (get_fetch_url scm remote) <> Raise FileNotFoundError
  /\ Forall (fun ev => is_overlay_get ev = false) (trace (get_fetch_url scm remote)).
Proof.
  intros Hov.
  assert (Hnone : forall section name, overlay_get scm section name = None).
  { intros. unfold overlay_get. rewrite Hov. reflexivity. }
  assert (Hempty : forall section name, overlay_get (with_overlay scm ∅) section name = None).
  { intros. unfold overlay_get. rewrite overlay_with_overlay. apply lookup_empty. }
  rewrite !get_fetch_url_run. unfold outcome, trace, snd, fst.
  rewrite (first_present_layers_no_overlay _ _ Hnone).
  rewrite (first_present_layers_no_overlay _ _ Hempty).
  split; [reflexivity|]. split; [reflexivity|]. split.
  - destruct (first_present _); discriminate.
  - unfold resolution_trace, remote_calls. rewrite Hov, !Hnone.
    destruct (git_config scm !! (["lfs"], "url")),
      (git_config scm !! (["remote"; resolved_remote scm remote], "lfsurl")),
      (truthy_str remote), (truthy_str (tracked_remote scm)); cbn;
      repeat constructor.
Qed.

(** ** Root narrowing *)

Example static_prefix_examples :
  static_prefix "data/sub/*.bin" = Some "data/sub/"
  /\ static_prefix "data/sub/a.bin" = Some "data/sub/a.bin"
  /\ static_prefix "*.bin" = None
  /\ static_prefix "da*ta/x" = None
  /\ static_prefix "" = Some ""
  /\ narrow_root (Some ["data/**"]) = ("data/", Some [])
  /\ narrow_root (Some ["data/*.bin"]) = ("data/", Some ["data/*.bin"])
  /\ narrow_root (Some ["data//**"]) = ("data//", Some ["data//**"])
  /\ narrow_root (Some ["a"; "b"]) = ("/", Some ["a"; "b"]).
Proof. repeat split; vm_compute; reflexivity. Qed.

Lemma wildcard_not_sep (c : ascii) : is_wildcard c = true -> c <> "/"%char.
Proof. intros H ->. vm_compute in H. discriminate. Qed.

Lemma wildcard_not_newline (c : ascii) (s : string) :
  is_wildcard c = true -> String c s <> newline.
Proof. intros H E. injection E as -> _. vm_compute in H. discriminate. Qed.

Lemma star_loop_prefix_len (s : string) :
  forall (fuel n : nat),
    (String.length s <= fuel)%nat ->
    option_map ms_groups
      (star_loop (re_run (ReNotIn ["*"; "?"; "["]%char)) after_star fuel
         {| ms_pos := n; ms_rest := s; ms_groups := [] |})
    = option_map (fun m => [("prefix", (O, (n + m)%nat))]) (prefix_len s).
Proof.
  induction s as [|c s IH]; intros fuel n Hfuel.
  - assert (Hk : after_star {| ms_pos := n; ms_rest := ""; ms_groups := [] |}
                 = Some {| ms_pos := n; ms_rest := "";
                           ms_groups := [("prefix", (O, n))] |}) by reflexivity.
    destruct fuel; cbn [star_loop re_run ms_rest orelse]; rewrite Hk; cbn;
      rewrite Nat.add_0_r; reflexivity.
  - destruct fuel as [|fuel]; [cbn in Hfuel; lia|].
    cbn [star_loop re_run ms_rest prefix_len].
    fold (is_wildcard c).
    destruct (is_wildcard c) eqn:Hw.
    + cbn [orelse]. unfold after_star. cbn [re_run ms_rest orelse].
      rewrite bool_decide_eq_false_2 by (apply wildcard_not_sep; exact Hw).
      rewrite (bool_decide_eq_false_2 (String c s = newline))
        by (apply wildcard_not_newline; exact Hw).
      reflexivity.
    + unfold advance. cbn [ms_rest ms_pos ms_groups String.length].
      assert (Hlt : (String.length s <? S (String.length s))%nat = true)
        by (apply Nat.ltb_lt; lia).
      rewrite Hlt.
      specialize (IH fuel (S n) ltac:(cbn in Hfuel; lia)).
      destruct (star_loop _ _ fuel _) as [st'|]; destruct (prefix_len s) as [m|] eqn:Hp;
        cbn in IH; try discriminate IH.
      * cbn. injection IH as ->. rewrite Nat.add_succ_r. reflexivity.
      * cbn [orelse]. unfold after_star. cbn [re_run ms_rest orelse advance ms_pos ms_groups].
        destruct (bool_decide (c = "/"%char)) eqn:Hc.
        -- cbn. rewrite Nat.add_1_r. reflexivity.
        -- cbn [orelse]. destruct s as [|c' s'].
           ++ discriminate Hp.
           ++ rewrite (bool_decide_eq_false_2 (String c (String c' s') = newline))
                by (unfold newline; congruence).
              reflexivity.
Qed.

Lemma re_match_prefix_len (p : string) :
  re_match _ROOT_PATH_PREFIX_REGEX p
  = option_map (fun m => (p, [("prefix", (O, m))])) (prefix_len p).
Proof.
  unfold re_match, _ROOT_PATH_PREFIX_REGEX.
  cbn [re_run ms_pos Nat.eqb ms_rest].
  pose proof (star_loop_prefix_len p (String.length p) O (le_n _)) as H.
  unfold after_star in H. cbn [re_run] in H.
  destruct (star_loop _ _ _ _) as [st|]; destruct (prefix_len p) as [m|];
    cbn in H; try discriminate H; [|reflexivity].
  injection H as ->. reflexivity.
Qed.

Lemma static_prefix_cons (c : ascii) (p : string) :
  static_prefix (String c p)
  = if is_wildcard c then None
    else match static_prefix p with
         | Some q => Some (String c q)
         | None => if bool_decide (c = "/"%char) then Some "/" else None
         end.
Proof.
  unfold static_prefix. cbn [static_run].
  destruct (is_wildcard c); [reflexivity|].
  destruct (bool_decide (static_run p = p)) eqn:E.
  - apply bool_decide_eq_true_1 in E. rewrite E.
    rewrite bool_decide_eq_true_2 by reflexivity. reflexivity.
  - apply bool_decide_eq_false_1 in E.
    rewrite bool_decide_eq_false_2 by congruence. reflexivity.
Qed.

Lemma prefix_len_static_prefix (p : string) :
  option_map (fun m => substring 0 m p) (prefix_len p) = static_prefix p.
Proof.
  induction p as [|c p IH]; [reflexivity|].
  rewrite static_prefix_cons. cbn [prefix_len].
  destruct (is_wildcard c); [reflexivity|].
  rewrite <- IH.
  destruct (prefix_len p) as [m|]; cbn; [reflexivity|].
  destruct (bool_decide (c = "/"%char)) eqn:E; [|reflexivity].
  apply bool_decide_eq_true_1 in E. subst c. cbn. destruct p; reflexivity.
Qed.

(** [match.group("prefix")] of [_ROOT_PATH_PREFIX_REGEX] is the static
    prefix, and there is no match exactly when there is no static prefix. *)
Lemma regex_static_prefix (p : string) :
  match re_match _ROOT_PATH_PREFIX_REGEX p with
  | Some result => group result "prefix"
  | None => None
  end = static_prefix p
  /\ (re_match _ROOT_PATH_PREFIX_REGEX p = None <-> static_prefix p = None).
Proof.
  rewrite re_match_prefix_len, <- prefix_len_static_prefix.
  destruct (prefix_len p) as [m|]; cbn.
  - unfold group. cbn [snd fst assoc_group].
    rewrite bool_decide_eq_true_2 by reflexivity. rewrite Nat.sub_0_r.
    split; [reflexivity|]. split; discriminate.
  - split; [reflexivity|]. split; reflexivity.
Qed.

Lemma narrow_root_run (include : option (list string)) :
  narrow_root include = narrow_root_spec include.
Proof.
  destruct include as [[|p [|q l]]|]; try reflexivity.
  unfold narrow_root, narrow_root_spec.
  destruct (regex_static_prefix p) as [Hg Hn].
  destruct (re_match _ROOT_PATH_PREFIX_REGEX p) as [result|].
  - rewrite Hg. destruct (static_prefix p) as [root|] eqn:Es.
    + destruct (_ || _); reflexivity.
    + reflexivity.
  - rewrite <- Hg. reflexivity.
Qed.

(** ** Path filtering *)

Section FilterPaths.

Variable fnmatchcase : string -> string -> bool.

Lemma elem_of_fnmatch_filter (paths : list string) (pat x : string) :
  x ∈ (list_to_set (fnmatch_filter fnmatchcase paths pat) : gset string)
  <-> x ∈ paths /\ fnmatchcase x pat = true.
Proof.
  rewrite elem_of_list_to_set. unfold fnmatch_filter.
  rewrite !list_elem_of_In.
  exact (filter_In (fun name => fnmatchcase name pat) x paths).
Qed.

Lemma elem_of_foldl_union (f : string -> gset string) (l : list string) :
  forall (acc : gset string) (x : string),
    x ∈ foldl (fun acc pattern => acc ∪ f pattern) acc l
    <-> x ∈ acc \/ exists pat, pat ∈ l /\ x ∈ f pat.
Proof.
  induction l as [|a l IH]; intros acc x; cbn [foldl].
  - split; [tauto|]. intros [H|(pat & Hin & _)]; [exact H|]. inversion Hin.
  - rewrite IH, elem_of_union. split.
    + intros [[H|H]|(pat & Hin & Hx)].
      * left; exact H.
      * right; exists a; split; [left|exact H].
      * right; exists pat; split; [right; exact Hin|exact Hx].
    + intros [H|(pat & Hin & Hx)].
      * left; left; exact H.
      * apply elem_of_cons in Hin as [->|Hin].
        -- left; right; exact Hx.
        -- right; exists pat; split; assumption.
Qed.

Lemma elem_of_foldl_difference (f : string -> gset string) (l : list string) :
  forall (acc : gset string) (x : string),
    x ∈ foldl (fun acc pattern => acc ∖ f pattern) acc l
    <-> x ∈ acc /\ forall pat, pat ∈ l -> x ∉ f pat.
Proof.
  induction l as [|a l IH]; intros acc x; cbn [foldl].
  - split; [|tauto]. intros H; split; [exact H|]. intros pat Hin. inversion Hin.
  - rewrite IH, elem_of_difference. split.
    + intros [[H Ha] Hl]. split; [exact H|].
      intros pat Hin. apply elem_of_cons in Hin as [->|Hin]; [exact Ha|apply Hl, Hin].
    + intros [H Hl]. split; [split; [exact H|apply Hl; left]|].
      intros pat Hin. apply Hl. right. exact Hin.
Qed.

(** Membership in the result of [_filter_paths]. *)
Lemma elem_of_filter_paths (paths : list string) (include exclude : option (list string))
    (x : string) :
  x ∈ _filter_paths fnmatchcase paths include exclude
  <-> x ∈ paths
      /\ (truthy_list include = false
          \/ exists pat, pat ∈ default [] include /\ fnmatchcase x pat = true)
      /\ (forall pat, pat ∈ default [] exclude -> fnmatchcase x pat = false).
Proof.
  unfold _filter_paths. rewrite elem_of_elements.
  assert (Hinc :
    x ∈ (if truthy_list include
         then foldl (fun acc pattern =>
                       acc ∪ list_to_set (fnmatch_filter fnmatchcase paths pattern))
                    (∅ : gset string) (default [] include)
         else ∅ ∪ list_to_set paths)
    <-> x ∈ paths
        /\ (truthy_list include = false
            \/ exists pat, pat ∈ default [] include /\ fnmatchcase x pat = true)).
  { destruct (truthy_list include).
    - rewrite elem_of_foldl_union. split.
      + intros [H|(pat & Hin & Hx)]; [set_solver|].
        apply elem_of_fnmatch_filter in Hx as [Hp Hm]. eauto.
      + intros [Hp [H|(pat & Hin & Hm)]]; [discriminate|].
        right. exists pat. split; [exact Hin|]. apply elem_of_fnmatch_filter. auto.
    - rewrite elem_of_union, elem_of_list_to_set. split.
      + intros [H|H]; [set_solver|]. auto.
      + intros [H _]. right. exact H. }
  assert (Hnot : forall pat,
    x ∈ paths ->
    (x ∉ (list_to_set (fnmatch_filter fnmatchcase paths pat) : gset string)
     <-> fnmatchcase x pat = false)).
  { intros pat Hp. rewrite elem_of_fnmatch_filter.
    destruct (fnmatchcase x pat); split; intros H; try reflexivity; try discriminate.
    - exfalso. apply H. auto.
    - intros [_ H']. discriminate. }
  destruct (truthy_list exclude) eqn:Eex.
  - rewrite elem_of_foldl_difference, Hinc. split.
    + intros [[Hp Hi] He]. repeat split; try assumption.
      intros pat Hin. apply Hnot; auto.
    + intros (Hp & Hi & He). repeat split; try assumption.
      intros pat Hin. apply Hnot; auto.
  - rewrite Hinc. assert (Hnil : default [] exclude = []).
    { destruct exclude as [[|? ?]|]; try reflexivity. discriminate. }
    rewrite Hnil. split.
    + intros [Hp Hi]. repeat split; try assumption. intros pat Hin. inversion Hin.
    + intros (Hp & Hi & _). auto.
Qed.

End FilterPaths.

(** C8. [_filter_paths] yields exactly the paths of the input that match
    some include pattern (every path when there is no include pattern) and
    match no exclude pattern, each once; with no pattern at all it yields
    the set of the input paths. *)
Theorem filter_paths_spec (fnmatchcase : string -> string -> bool)
    (paths : list string) (include exclude : option (list string)) :
  (forall x : string,
     x ∈ _filter_paths fnmatchcase paths include exclude
     <-> x ∈ paths
         /\ (truthy_list include = false
             \/ exists pat, pat ∈ default [] include /\ fnmatchcase x pat = true)
         /\ (forall pat, pat ∈ default [] exclude -> fnmatchcase x pat = false))
  /\ NoDup (_filter_paths fnmatchcase paths include exclude)
  /\ (list_to_set (_filter_paths fnmatchcase paths (Some []) (Some [])) : gset string)
     = list_to_set paths
  /\ (list_to_set (_filter_paths fnmatchcase paths None None) : gset string)
     = list_to_set paths.
Proof.
  split; [intros x; apply elem_of_filter_paths|].
  split; [apply NoDup_elements|].
  split; apply set_eq; intros x;
    rewrite !elem_of_list_to_set, elem_of_filter_paths; cbn; split.
  - intros [H _]. exact H.
  - intros H. split; [exact H|]. split; [left; reflexivity|]. intros pat Hin. inversion Hin.
  - intros [H _]. exact H.
  - intros H. split; [exact H|]. split; [left; reflexivity|]. intros pat Hin. inversion Hin.
Qed.

(** ** Runs of loops and generators *)

Lemma bind_run {A B} (m : M A) (f : A -> M B) :
  bind m f
  = match outcome m with
    | Ok a => (trace m ++ trace (f a), outcome (f a))
    | Raise e => (trace m, Raise e)
    end.
Proof.
  destruct m as [t [a|e]]; cbn; [|reflexivity].
  destruct (f a); reflexivity.
Qed.

Lemma pair_trace_outcome {A} (m : M A) : m = (trace m, outcome m).
Proof. destruct m; reflexivity. Qed.

Lemma yields_app (t1 t2 : list Event) : yields (t1 ++ t2) = yields t1 ++ yields t2.
Proof. apply omap_app. Qed.

Lemma checked_app (t1 t2 : list Event) : checked (t1 ++ t2) = checked t1 ++ checked t2.
Proof. apply map_app. Qed.

Lemma for_each_trace_Forall {A S} (P : Event -> Prop) (body : S -> A -> M S) (l : list A) :
  (forall s x, Forall P (trace (body s x))) ->
  forall s, Forall P (trace (for_each l body s)).
Proof.
  intros Hb. induction l as [|x l IH]; intros s; cbn [for_each].
  - constructor.
  - rewrite bind_run. specialize (Hb s x).
    destruct (outcome (body s x)); cbn [trace fst]; [|exact Hb].
    apply Forall_app. split; [exact Hb|apply IH].
Qed.

(** A loop on the unit state that ends well ran every round to its end. *)
Lemma for_each_unit_ok {A} (body : unit -> A -> M unit) (l : list A) :
  outcome (for_each l body tt) = Ok tt ->
  trace (for_each l body tt) = concat (map (fun x => trace (body tt x)) l)
  /\ forall x, x ∈ l -> outcome (body tt x) = Ok tt.
Proof.
  induction l as [|x l IH]; cbn [for_each]; intros Hok.
  - split; [reflexivity|]. intros x Hin. inversion Hin.
  - rewrite bind_run in Hok |- *.
    destruct (outcome (body tt x)) as [[]|e] eqn:Ex; [|discriminate Hok].
    cbn [outcome snd trace fst] in Hok |- *.
    destruct (IH Hok) as [Ht Hall]. split.
    + cbn [map concat]. rewrite <- Ht. reflexivity.
    + intros y Hin. apply elem_of_cons in Hin as [->|Hin]; [exact Ex|apply Hall, Hin].
Qed.

Lemma for_each_unit_all_ok {A} (body : unit -> A -> M unit) (l : list A) :
  (forall x, x ∈ l -> outcome (body tt x) = Ok tt) ->
  outcome (for_each l body tt) = Ok tt.
Proof.
  induction l as [|x l IH]; cbn [for_each]; intros Hall; [reflexivity|].
  rewrite bind_run, (Hall x) by left. cbn [outcome snd].
  apply IH. intros y Hin. apply Hall. right. exact Hin.
Qed.

Section Collect.

Variable fnmatchcase : string -> string -> bool.
Variable HEADERS : list bytes.
Variable Pointer_load : Reader -> result Pointer.


Lemma collect_objects_unfold (scm : Git) (rev : string)
    (include exclude : option (list string)) :
  _collect_objects fnmatchcase HEADERS Pointer_load scm rev include exclude
  = let loop := for_each (candidates fnmatchcase scm rev include exclude)
                  (fun _ path => visit HEADERS Pointer_load scm rev path) tt in
    (EvGetFs rev :: EvFind rev (fst (narrow_root include)) :: trace loop, outcome loop).
Proof.
  unfold _collect_objects, candidates, visit.
  destruct (narrow_root include) as [root include'].
  cbn [bind call fst]. destruct (for_each _ _ _) as [t r]. reflexivity.
Qed.

(** One candidate: its outcome, what it yields and its events. *)
Lemma visit_run (scm : Git) (rev path : string) :
  outcome (visit HEADERS Pointer_load scm rev path)
  = (if bool_decide (check_attr scm (lstrip_sep path) "filter" rev = Some "lfs")
     then match candidate_outcome HEADERS Pointer_load (get_fs scm rev) path with
          | Raise e => if io_or_parse_failure e then Ok tt else Raise e
          | Ok _ => Ok tt
          end
     else Ok tt)
  /\ yields (trace (visit HEADERS Pointer_load scm rev path))
     = option_list (candidate_pointer HEADERS Pointer_load scm rev path)
  /\ Forall (fun ev => is_collector_event ev = true)
       (trace (visit HEADERS Pointer_load scm rev path))
  /\ EvCheckAttr (lstrip_sep path) "filter" rev
     ∈ trace (visit HEADERS Pointer_load scm rev path).
Proof.
  unfold visit, candidate_pointer, candidate_outcome, read_candidate, io_or_parse_failure.
  cbn [bind call].
  destruct (bool_decide (check_attr scm (lstrip_sep path) "filter" rev = Some "lfs")).
  2:{ cbn. repeat split; try reflexivity; [repeat constructor | left]. }
  destruct (fs_open (get_fs scm rev) path) as [fobj|e]; cbn.
  2:{ rewrite orb_false_r.
      destruct (isinstance e ValueError || isinstance e OSError); cbn;
        repeat split; try reflexivity; try (repeat constructor); left. }
  destruct (peek fobj 100) as [data|e]; cbn.
  2:{ rewrite orb_false_r.
      destruct (isinstance e ValueError || isinstance e OSError); cbn;
        repeat split; try reflexivity; try (repeat constructor); left. }
  match goal with
  | |- context [existsb ?f HEADERS] => destruct (existsb f HEADERS)
  end; cbn.
  2:{ repeat split; try reflexivity; try (repeat constructor); left. }
  destruct (Pointer_load fobj) as [p|e]; cbn.
  - repeat split; try reflexivity; try (repeat constructor); left.
  - rewrite orb_false_r.
    destruct (isinstance e ValueError || isinstance e OSError); cbn;
      repeat split; try reflexivity; try (repeat constructor); left.
Qed.

Lemma yields_concat_visits (scm : Git) (rev : string) (l : list string) :
  yields (concat (map (fun path => trace (visit HEADERS Pointer_load scm rev path)) l))
  = omap (candidate_pointer HEADERS Pointer_load scm rev) l.
Proof.
  induction l as [|path l IH]; [reflexivity|].
  cbn [map concat omap]. rewrite yields_app, IH.
  destruct (visit_run scm rev path) as (_ & -> & _).
  destruct (candidate_pointer _ _ _ _ _) eqn:E; cbn; rewrite E; reflexivity.
Qed.

Lemma collect_events (scm : Git) (rev : string) (include exclude : option (list string)) :
  Forall (fun ev => is_collector_event ev = true) (trace (_collect_objects fnmatchcase HEADERS Pointer_load
                                                            scm rev include exclude)).
Proof.
  rewrite collect_objects_unfold. cbn [trace fst].
  repeat (constructor; [reflexivity|]).
  apply for_each_trace_Forall. intros _ path. apply visit_run.
Qed.

(** A collector that ends well yields the pointers of its candidates, in
    the order of the candidates. *)
Lemma collect_ok_yields (scm : Git) (rev : string) (include exclude : option (list string)) :
  outcome (_collect_objects fnmatchcase HEADERS Pointer_load scm rev include exclude) = Ok tt ->
  yields (trace (_collect_objects fnmatchcase HEADERS Pointer_load scm rev include exclude))
  = omap (candidate_pointer HEADERS Pointer_load scm rev)
      (candidates fnmatchcase scm rev include exclude).
Proof.
  rewrite collect_objects_unfold. cbn [trace fst outcome snd]. intros Hok.
  destruct (for_each_unit_ok _ _ Hok) as [-> _].
  cbn [yields omap]. apply yields_concat_visits.
Qed.

(** C7. When every failure met while opening, peeking or parsing a
    candidate is an I/O failure ([OSError]) or a parse failure
    ([ValueError]), [_collect_objects] ends without an exception, it
    visits every candidate, and it yields the pointers of the candidates
    that were read and parsed, the others being dropped. *)
Theorem candidate_failures_are_skipped (scm : Git) (rev : string)
    (include exclude : option (list string)) :
  (forall (path : string) (e : exn),
     path ∈ candidates fnmatchcase scm rev include exclude ->
     check_attr scm (lstrip_sep path) "filter" rev = Some "lfs" ->
     candidate_outcome HEADERS Pointer_load (get_fs scm rev) path = Raise e ->
     io_or_parse_failure e = true) ->
  outcome (_collect_objects fnmatchcase HEADERS Pointer_load scm rev include exclude) = Ok tt
  /\ yields (trace (_collect_objects fnmatchcase HEADERS Pointer_load scm rev include exclude))
     = omap (candidate_pointer HEADERS Pointer_load scm rev)
         (candidates fnmatchcase scm rev include exclude)
  /\ forall path : string,
       path ∈ candidates fnmatchcase scm rev include exclude ->
       EvCheckAttr (lstrip_sep path) "filter" rev
       ∈ trace (_collect_objects fnmatchcase HEADERS Pointer_load scm rev include exclude).
Proof.
  intros Hfail.
  assert (Hok : outcome (_collect_objects fnmatchcase HEADERS Pointer_load
                           scm rev include exclude) = Ok tt).
  { rewrite collect_objects_unfold. cbn [outcome snd].
    apply for_each_unit_all_ok. intros path Hin.
    destruct (visit_run scm rev path) as (-> & _).
    destruct (bool_decide (check_attr scm (lstrip_sep path) "filter" rev = Some "lfs"))
      eqn:Eattr; [|reflexivity].
    apply bool_decide_eq_true_1 in Eattr.
    destruct (candidate_outcome _ _ _ _) as [o|e] eqn:Ec; [reflexivity|].
    rewrite (Hfail path e Hin Eattr Ec). reflexivity. }
  split; [exact Hok|]. split; [apply collect_ok_yields, Hok|].
  intros path Hin. revert Hok. rewrite collect_objects_unfold.
  cbn [trace fst outcome snd]. intros Hok.
  destruct (for_each_unit_ok _ _ Hok) as [-> _].
  right. right. apply list_elem_of_In, in_concat.
  exists (trace (visit HEADERS Pointer_load scm rev path)). split.
  - apply in_map_iff. exists path. split; [reflexivity|]. apply list_elem_of_In, Hin.
  - apply list_elem_of_In. apply visit_run.
Qed.

End Collect.

(** ** The orchestrator *)

Lemma missing_cons (scm : Git) (p : Pointer) (ps : list Pointer) (s : gset Pointer) :
  (if negb (lfs_exists scm p) then s ∪ {[ p ]} else s) ∪ missing scm ps
  = s ∪ missing scm (p :: ps).
Proof.
  unfold missing. cbn [List.filter].
  destruct (negb (lfs_exists scm p)); cbn [list_to_set];
    [rewrite (assoc_L (∪))|]; reflexivity.
Qed.

Lemma keep_missing_run (scm : Git) (s : gset Pointer) (p : Pointer) :
  keep_missing scm s p
  = ([EvExists p], Ok (if negb (lfs_exists scm p) then s ∪ {[ p ]} else s)).
Proof. unfold keep_missing. cbn. destruct (lfs_exists scm p); reflexivity. Qed.

Lemma missing_nil (scm : Git) (s : gset Pointer) : s ∪ missing scm [] = s.
Proof. unfold missing. cbn. apply (right_id_L ∅ (∪)). Qed.

Lemma consume_keep_missing (scm : Git) (t : list Event) :
  forall s : gset Pointer,
    consume t (keep_missing scm) s = (checked t, Ok (s ∪ missing scm (yields t))).
Proof.
  induction t as [|ev t IH]; intros s.
  - cbn [consume checked map yields omap]. unfold ret.
    change (omap _ []) with (@nil Pointer). rewrite missing_nil. reflexivity.
  - destruct ev; cbn [consume];
      try (rewrite bind_run; cbn [call outcome snd trace fst];
           rewrite IH; reflexivity).
    rewrite keep_missing_run, bind_run. cbn [outcome snd trace fst].
    rewrite IH. cbn [trace fst outcome snd]. rewrite missing_cons. reflexivity.
Qed.

Lemma for_gen_keep_missing (scm : Git) (g : M unit) (s : gset Pointer) :
  for_gen g (keep_missing scm) s
  = (checked (trace g),
     match outcome g with
     | Ok _ => Ok (s ∪ missing scm (yields (trace g)))
     | Raise e => Raise e
     end).
Proof.
  unfold for_gen. rewrite consume_keep_missing, bind_run. cbn [outcome snd trace fst].
  destruct (outcome g); cbn; rewrite app_nil_r; reflexivity.
Qed.

Lemma missing_app (scm : Git) (ps qs : list Pointer) :
  missing scm (ps ++ qs) = missing scm ps ∪ missing scm qs.
Proof.
  unfold missing. rewrite List.filter_app, list_to_set_app_L. reflexivity.
Qed.

Section FetchRun.

Variable fnmatchcase : string -> string -> bool.
Variable HEADERS : list bytes.
Variable Pointer_load : Reader -> result Pointer.


(** The loop of [fetch] over the revisions, in closed form. *)
Lemma collect_missing_run (scm : Git) (include exclude : option (list string))
    (revs : list string) :
  forall s : gset Pointer,
    for_each revs
      (fun objects rev =>
         for_gen (_collect_objects fnmatchcase HEADERS Pointer_load
                    scm rev include exclude) (keep_missing scm) objects) s
    = let g := collect_all fnmatchcase HEADERS Pointer_load scm revs include exclude in
      (checked (trace g),
       match outcome g with
       | Ok _ => Ok (s ∪ missing scm (yields (trace g)))
       | Raise e => Raise e
       end).
Proof.
  unfold collect_all.
  induction revs as [|rev revs IH]; intros s; cbn [for_each].
  - cbn -[missing]. rewrite missing_nil. reflexivity.
  - rewrite for_gen_keep_missing, !bind_run. cbn [outcome snd trace fst].
    destruct (outcome (_collect_objects fnmatchcase HEADERS Pointer_load
                         scm rev include exclude)) as [[]|e]; [|reflexivity].
    rewrite IH. cbn zeta. cbn [outcome snd trace fst].
    rewrite checked_app, yields_app, missing_app.
    destruct (outcome (for_each revs _ tt)); [|reflexivity].
    rewrite (assoc_L (∪)). reflexivity.
Qed.

Lemma endpoint_run (scm : Git) (remote : option string) :
  try_except (get_fetch_url scm remote) [InvalidRemote]
    (fun e => if truthy_str remote then ret (default "" remote) else raise e)
  = (resolution_trace scm remote, endpoint scm remote).
Proof.
  rewrite get_fetch_url_run. unfold endpoint.
  destruct (first_present (layers scm remote)); cbn; [reflexivity|].
  destruct (truthy_str remote); cbn; rewrite app_nil_r; reflexivity.
Qed.

(** The run of [fetch], in closed form. *)
Lemma fetch_run (scm : Git) (revs : option (list string)) (remote : option string)
    (include exclude : option (list string)) :
  fetch fnmatchcase HEADERS Pointer_load scm revs remote include exclude
  = let g := collect_all fnmatchcase HEADERS Pointer_load
      scm (effective_revs revs) include exclude in
    let objects := missing scm (yields (trace g)) in
    match outcome g with
    | Raise e => (checked (trace g), Raise e)
    | Ok _ =>
        if bool_decide (objects = ∅) then (checked (trace g), Ok tt)
        else match endpoint scm remote with
             | Ok url =>
                 (checked (trace g) ++ resolution_trace scm remote
                    ++ [EvStorageFetch url objects],
                  lfs_fetch scm url objects)
             | Raise e => (checked (trace g) ++ resolution_trace scm remote, Raise e)
             end
    end.
Proof.
  unfold fetch. fold (effective_revs revs).
  rewrite collect_missing_run. cbn zeta.
  rewrite bind_run. cbn [outcome snd trace fst].
  destruct (outcome (collect_all fnmatchcase HEADERS Pointer_load
                       scm (effective_revs revs) include exclude)) as [[]|e];
    [|reflexivity].
  rewrite (left_id_L ∅ (∪)).
  destruct (bool_decide (_ = ∅)); cbn [ret trace fst outcome snd].
  - rewrite app_nil_r. reflexivity.
  - rewrite endpoint_run, bind_run. cbn [outcome snd trace fst call].
    destruct (endpoint scm remote); reflexivity.
Qed.

(** When the collection ends well and leaves pointers to transfer, and
    an endpoint is found, [fetch] ends with the transfer of those pointers
    from that endpoint. *)
Lemma fetch_transfers (scm : Git) (revs : option (list string)) (remote : option string)
    (include exclude : option (list string)) (url : string) :
  let g := collect_all fnmatchcase HEADERS Pointer_load
             scm (effective_revs revs) include exclude in
  outcome g = Ok tt ->
  missing scm (yields (trace g)) <> ∅ ->
  endpoint scm remote = Ok url ->
  fetch fnmatchcase HEADERS Pointer_load scm revs remote include exclude
  = (checked (trace g) ++ resolution_trace scm remote
       ++ [EvStorageFetch url (missing scm (yields (trace g)))],
     lfs_fetch scm url (missing scm (yields (trace g)))).
Proof.
  intros g Hok Hne Hurl. rewrite fetch_run. cbn zeta. fold g.
  rewrite Hok, Hurl. rewrite bool_decide_eq_false_2 by exact Hne. reflexivity.
Qed.

Lemma collect_revs_events (scm : Git) (revs : list string)
    (include exclude : option (list string)) :
  Forall (fun ev => is_collector_event ev = true)
    (trace (collect_all fnmatchcase HEADERS Pointer_load scm revs include exclude)).
Proof. apply for_each_trace_Forall. intros _ rev. apply collect_events. Qed.

Lemma collect_revs_ok_yields (scm : Git) (revs : list string)
    (include exclude : option (list string)) :
  outcome (collect_all fnmatchcase HEADERS Pointer_load scm revs include exclude) = Ok tt ->
  forall p : Pointer,
    p ∈ yields (trace (collect_all fnmatchcase HEADERS Pointer_load scm revs include exclude))
    <-> exists rev, rev ∈ revs /\ p ∈ yields (trace (_collect_objects fnmatchcase HEADERS Pointer_load
                                                       scm rev include exclude)).
Proof.
  unfold collect_all. intros Hok p.
  destruct (for_each_unit_ok _ _ Hok) as [-> _]. clear Hok.
  induction revs as [|rev revs IH]; cbn [map concat].
  - split; [intros H; inversion H|intros (rev & H & _); inversion H].
  - rewrite yields_app, elem_of_app, IH. split.
    + intros [H|(r & Hr & H)]; [exists rev; split; [left|exact H]|].
      exists r; split; [right; exact Hr|exact H].
    + intros (r & Hr & H). apply elem_of_cons in Hr as [->|Hr]; [left; exact H|].
      right. exists r. split; assumption.
Qed.

Lemma elem_of_missing (scm : Git) (ps : list Pointer) (p : Pointer) :
  p ∈ missing scm ps <-> p ∈ ps /\ lfs_exists scm p = false.
Proof.
  unfold missing. rewrite elem_of_list_to_set, !list_elem_of_In, filter_In.
  destruct (lfs_exists scm p); cbn; intuition discriminate.
Qed.

Lemma exists_calls_checked (t : list Event) :
  Forall (fun ev => is_collector_event ev = true) t ->
  exists_calls (checked t) = yields t.
Proof.
  induction 1 as [|ev t Hev _ IH]; [reflexivity|].
  unfold exists_calls, yields, checked in *.
  destruct ev; try discriminate Hev; cbn; cbn in IH; rewrite IH; reflexivity.
Qed.

Lemma exists_calls_app (t1 t2 : list Event) :
  exists_calls (t1 ++ t2) = exists_calls t1 ++ exists_calls t2.
Proof. apply omap_app. Qed.

Lemma resolution_trace_events (scm : Git) (remote : option string) :
  Forall (fun ev => is_resolution ev = true) (resolution_trace scm remote).
Proof.
  unfold resolution_trace, remote_calls.
  destruct (git_config scm !! (["lfs"], "url")), (overlay scm),
    (overlay_get scm ["lfs"] "url"), (truthy_str remote),
    (truthy_str (tracked_remote scm)),
    (git_config scm !! (["remote"; resolved_remote scm remote], "lfsurl")),
    (overlay_get scm ["remote"; resolved_remote scm remote] "lfsurl");
    cbn; repeat constructor.
Qed.

Lemma exists_calls_none (t : list Event) :
  Forall (fun ev => is_resolution ev = true \/ is_transfer ev = true) t ->
  exists_calls t = [].
Proof.
  induction 1 as [|ev t Hev _ IH]; [reflexivity|].
  destruct ev; cbn in Hev; try (destruct Hev; discriminate); exact IH.
Qed.

(** C6. The existence check of the storage is called once for each
    pointer a collector yields, in the order of the yields: the pointers
    it is called with are the pointers yielded over the revisions, a
    pointer yielded several times being checked as many times. *)
Theorem exists_called_per_yield (scm : Git) (revs : option (list string))
    (remote : option string) (include exclude : option (list string)) :
  exists_calls
    (trace (fetch fnmatchcase HEADERS Pointer_load scm revs remote include exclude))
  = yields (trace (collect_all fnmatchcase HEADERS Pointer_load
                     scm (effective_revs revs) include exclude)).
Proof.
  rewrite fetch_run. cbn zeta.
  pose proof (collect_revs_events scm (effective_revs revs) include exclude) as Hev.
  pose proof (resolution_trace_events scm remote) as Hres.
  assert (Hnone : forall tail,
            Forall (fun ev => is_transfer ev = true) tail ->
            exists_calls (resolution_trace scm remote ++ tail) = []).
  { intros tail Ht. apply exists_calls_none, Forall_app. split.
    - eapply Forall_impl; [|exact Hres]. cbn. auto.
    - eapply Forall_impl; [|exact Ht]. cbn. auto. }
  destruct (outcome (collect_all fnmatchcase HEADERS Pointer_load
                       scm (effective_revs revs) include exclude));
    [|apply exists_calls_checked, Hev].
  destruct (bool_decide (_ = ∅)); [apply exists_calls_checked, Hev|].
  destruct (endpoint scm remote); cbn [trace fst];
    rewrite exists_calls_app, exists_calls_checked by exact Hev.
  - rewrite Hnone by (repeat constructor). apply app_nil_r.
  - rewrite <- (app_nil_r (resolution_trace scm remote)), Hnone by constructor.
    apply app_nil_r.
Qed.

Lemma checked_events (t : list Event) :
  Forall (fun ev => is_collector_event ev = true) t ->
  Forall (fun ev => is_resolution ev = false /\ is_transfer ev = false) (checked t).
Proof.
  induction 1 as [|ev t Hev _ IH]; [constructor|].
  cbn [checked map]. constructor; [|exact IH].
  destruct ev; try discriminate Hev; split; reflexivity.
Qed.

Lemma no_transfer_in (t : list Event) (url : string) (objects : gset Pointer) :
  Forall (fun ev => is_transfer ev = false) t -> EvStorageFetch url objects ∉ t.
Proof.
  intros Hall Hin. rewrite Forall_forall in Hall.
  apply list_elem_of_In, Hall in Hin. discriminate Hin.
Qed.

Lemma before_transfer (scm : Git) (revs : list string) (remote : option string)
    (include exclude : option (list string)) :
  Forall (fun ev => is_transfer ev = false)
    (checked (trace (collect_all fnmatchcase HEADERS Pointer_load scm revs include exclude))
       ++ resolution_trace scm remote).
Proof.
  apply Forall_app. split.
  - eapply Forall_impl; [|apply checked_events, collect_revs_events].
    cbn. intros ev [_ H]. exact H.
  - eapply Forall_impl; [|apply resolution_trace_events].
    cbn. intros ev H. destruct ev; try discriminate H; reflexivity.
Qed.

(** C5. When the storage holds every pointer the collectors yield,
    [fetch] stops after the collection: its calls are those of the
    collection with the existence checks, none of them a call of endpoint
    resolution or a transfer, and it ends as the collection ends. *)
Theorem nothing_missing_no_resolution (scm : Git) (revs : option (list string))
    (remote : option string) (include exclude : option (list string)) :
  (forall p : Pointer,
     p ∈ yields (trace (collect_all fnmatchcase HEADERS Pointer_load
                          scm (effective_revs revs) include exclude)) ->
     lfs_exists scm p = true) ->
  trace (fetch fnmatchcase HEADERS Pointer_load scm revs remote include exclude)
  = checked (trace (collect_all fnmatchcase HEADERS Pointer_load
                      scm (effective_revs revs) include exclude))
  /\ Forall (fun ev => is_resolution ev = false /\ is_transfer ev = false)
       (trace (fetch fnmatchcase HEADERS Pointer_load scm revs remote include exclude))
  /\ outcome (fetch fnmatchcase HEADERS Pointer_load scm revs remote include exclude)
     = outcome (collect_all fnmatchcase HEADERS Pointer_load
                  scm (effective_revs revs) include exclude).
Proof.
  intros Hall.
  assert (Hempty : missing scm
                     (yields (trace (collect_all fnmatchcase HEADERS Pointer_load
                                       scm (effective_revs revs) include exclude)))
                   = ∅).
  { apply elem_of_equiv_empty_L. intros p Hp.
    apply elem_of_missing in Hp as [Hin Hex].
    rewrite (Hall p Hin) in Hex. discriminate Hex. }
  assert (Hrun : fetch fnmatchcase HEADERS Pointer_load scm revs remote include exclude
               = (checked (trace (collect_all fnmatchcase HEADERS Pointer_load
                                    scm (effective_revs revs) include exclude)),
                  outcome (collect_all fnmatchcase HEADERS Pointer_load
                             scm (effective_revs revs) include exclude))).
  { rewrite fetch_run. cbn zeta. rewrite Hempty.
    rewrite bool_decide_eq_true_2 by reflexivity.
    destruct (outcome _) as [[]|e]; reflexivity. }
  rewrite Hrun. cbn [trace fst outcome snd].
  split; [reflexivity|]. split; [|reflexivity].
  apply checked_events, collect_revs_events.
Qed.

(** C3. The set [fetch] hands to the transfer is the set of the pointers
    yielded by the collectors of all the requested revisions that the
    storage does not hold: a pointer is in it exactly when some revision
    yields it and the storage lacks it, it occurs once whatever the number
    of paths and revisions that yield it, and the transfer is the last
    call of the run, no transfer coming before it. *)
Theorem transfer_set_invariant (scm : Git) (revs : option (list string))
    (remote : option string) (include exclude : option (list string))
    (url : string) (objects : gset Pointer) :
  EvStorageFetch url objects
  ∈ trace (fetch fnmatchcase HEADERS Pointer_load scm revs remote include exclude) ->
  objects
  = missing scm (yields (trace (collect_all fnmatchcase HEADERS Pointer_load
                                  scm (effective_revs revs) include exclude)))
  /\ (forall p : Pointer,
        p ∈ objects
        <-> (exists rev, rev ∈ effective_revs revs
                         /\ p ∈ yields (trace (_collect_objects fnmatchcase HEADERS Pointer_load
                                                 scm rev include exclude)))
            /\ lfs_exists scm p = false)
  /\ NoDup (elements objects)
  /\ exists pre : list Event,
       trace (fetch fnmatchcase HEADERS Pointer_load scm revs remote include exclude)
       = pre ++ [EvStorageFetch url objects]
       /\ Forall (fun ev => is_transfer ev = false) pre.
Proof.
  rewrite fetch_run. cbn zeta.
  pose proof (before_transfer scm (effective_revs revs) remote include exclude) as Hpre.
  pose proof (collect_revs_ok_yields scm (effective_revs revs) include exclude) as Hys.
  assert (Hchk : forall u o,
            EvStorageFetch u o
            ∉ checked (trace (collect_all fnmatchcase HEADERS Pointer_load
                                scm (effective_revs revs) include exclude))).
  { intros u o. apply no_transfer_in. apply Forall_app in Hpre as [H _]. exact H. }
  destruct (outcome (collect_all fnmatchcase HEADERS Pointer_load
                       scm (effective_revs revs) include exclude)) as [[]|e];
    cbn [trace fst]; [|intros H; exfalso; exact (Hchk _ _ H)].
  destruct (bool_decide (_ = ∅)); cbn [trace fst];
    [intros H; exfalso; exact (Hchk _ _ H)|].
  destruct (endpoint scm remote) as [url'|e]; cbn [trace fst]; intros Hin.
  2:{ exfalso. exact (no_transfer_in _ _ _ Hpre Hin). }
  rewrite (assoc_L (++)) in Hin |- *.
  apply elem_of_app in Hin as [Hin|Hin];
    [exfalso; exact (no_transfer_in _ _ _ Hpre Hin)|].
  apply list_elem_of_singleton in Hin. injection Hin as -> ->.
  split; [reflexivity|]. split; [|split; [apply NoDup_elements|]].
  - intros p. rewrite elem_of_missing, (Hys eq_refl). reflexivity.
  - eexists. split; [reflexivity|exact Hpre].
Qed.

(** C4. When the collection leaves pointers to transfer and
    [get_fetch_url] fails with [InvalidRemote]: with a remote given by
    the caller, [fetch] does not fail on it and calls the transfer with
    that string as the endpoint; with no remote given, [fetch] fails with
    [InvalidRemote] and transfers nothing. *)
Theorem invalid_remote_fallback (scm : Git) (revs : option (list string))
    (remote : option string) (include exclude : option (list string)) :
  let g := collect_all fnmatchcase HEADERS Pointer_load
      scm (effective_revs revs) include exclude in
  let run := fetch fnmatchcase HEADERS Pointer_load scm revs remote include exclude in
  outcome g = Ok tt ->
  missing scm (yields (trace g)) <> ∅ ->
  outcome (get_fetch_url scm remote) = Raise InvalidRemote ->
  (truthy_str remote = true ->
     exists r : string,
       remote = Some r
       /\ trace run
          = checked (trace g) ++ trace (get_fetch_url scm remote)
              ++ [EvStorageFetch r (missing scm (yields (trace g)))]
       /\ outcome run = lfs_fetch scm r (missing scm (yields (trace g))))
  /\ (truthy_str remote = false ->
        outcome run = Raise InvalidRemote
        /\ Forall (fun ev => is_transfer ev = false) (trace run)).
Proof.
  intros g run Hok Hne Hfail. subst run.
  rewrite fetch_run. cbn zeta. fold g. rewrite Hok.
  rewrite bool_decide_eq_false_2 by exact Hne.
  rewrite get_fetch_url_run in Hfail |- *. cbn [outcome snd trace fst] in Hfail |- *.
  unfold endpoint.
  destruct (first_present (layers scm remote)); [discriminate Hfail|].
  split; intros Ht; rewrite Ht; cbn [trace fst outcome snd].
  - destruct remote as [r|]; [|discriminate Ht].
    exists r. repeat split; reflexivity.
  - split; [reflexivity|]. apply before_transfer.
Qed.

End FetchRun.


(** ** Narrowing, stated on patterns *)

Lemma upto_last_sep_whole (p : string) :
  upto_last_sep (static_run p) = Some p -> static_run p = p.
Proof.
  induction p as [|c p IH]; [reflexivity|].
  cbn [static_run]. destruct (is_wildcard c); [discriminate|].
  cbn [upto_last_sep]. destruct (upto_last_sep (static_run p)) as [q|].
  - intros H. injection H as ->. rewrite IH; reflexivity.
  - destruct (bool_decide (c = "/"%char)); [|discriminate].
    intros H. injection H as _ <-. reflexivity.
Qed.

Lemma no_sep_no_prefix (r : string) : has_sep r = false -> upto_last_sep r = None.
Proof.
  induction r as [|c r IH]; [reflexivity|].
  cbn [has_sep upto_last_sep]. intros H. apply orb_false_iff in H as [Hc Hr].
  rewrite (IH Hr), Hc. reflexivity.
Qed.

(** C2. With exactly one include pattern: a pattern without wildcard is
    the traversal root itself and include filtering is dropped; a pattern
    with a separator before its first wildcard has as root its part up to
    and including the last such separator, and include filtering is dropped
    when the pattern is that root, stripped of its final separators,
    followed by [/**]; a pattern with no separator before its first
    wildcard is not narrowed, the root is the tree root and the pattern is
    kept.  With no or several include patterns the root is the tree root and
    the patterns are kept.  The collector enumerates the paths under that
    root and filters them with the patterns kept. *)
Theorem root_narrowing (include : option (list string)) :
  narrow_root include
  = match include with
    | Some [p] =>
        if bool_decide (static_run p = p) then (p, Some [])
        else match upto_last_sep (static_run p) with
             | Some root =>
                 (root,
                  if bool_decide (p = rstrip_sep root +:+ "/**") then Some [] else Some [p])
             | None => ("/", Some [p])
             end
    | _ => ("/", include)
    end
  /\ forall (fnmatchcase : string -> string -> bool) (HEADERS : list bytes)
       (Pointer_load : Reader -> result Pointer) (scm : Git) (rev : string)
       (exclude : option (list string)),
       trace (_collect_objects fnmatchcase HEADERS Pointer_load scm rev include exclude)
       = EvGetFs rev :: EvFind rev (fst (narrow_root include)) ::
         trace (for_each
                  (_filter_paths fnmatchcase
                     (find (get_fs scm rev) (fst (narrow_root include)))
                     (snd (narrow_root include)) exclude)
                  (fun _ path => visit HEADERS Pointer_load scm rev path) tt).
Proof.
  split.
  - rewrite narrow_root_run. unfold narrow_root_spec.
    destruct include as [[|p [|q l]]|]; try reflexivity.
    unfold static_prefix.
    destruct (bool_decide (static_run p = p)) eqn:Erun.
    + rewrite bool_decide_eq_true_2 by reflexivity. reflexivity.
    + apply bool_decide_eq_false_1 in Erun.
      destruct (upto_last_sep (static_run p)) as [root|] eqn:Eroot; [|reflexivity].
      rewrite (bool_decide_eq_false_2 (p = root)); [reflexivity|].
      intros ->. apply Erun, upto_last_sep_whole, Eroot.
  - intros. rewrite collect_objects_unfold. unfold candidates.
    destruct (narrow_root include); reflexivity.
Qed.

(** The claim as worded fails on a pattern that starts with a wildcard:
    the root is the tree root, not the pattern. *)
Lemma root_narrowing_claim_fails :
  ~ (forall p : string, fst (narrow_root (Some [p])) = claimed_root p).
Proof. intros H. specialize (H "*.bin"). vm_compute in H. discriminate H. Qed.

(** C10. A single include pattern with no separator before its first
    wildcard is not matched by [_ROOT_PATH_PREFIX_REGEX]: the collector
    enumerates the tree root and its candidates are paths that match the
    pattern. *)
Theorem wildcard_before_separator (fnmatchcase : string -> string -> bool)
    (HEADERS : list bytes) (Pointer_load : Reader -> result Pointer)
    (scm : Git) (rev : string) (exclude : option (list string)) (p : string) :
  static_run p <> p ->
  has_sep (static_run p) = false ->
  re_match _ROOT_PATH_PREFIX_REGEX p = None
  /\ narrow_root (Some [p]) = ("/", Some [p])
  /\ (exists t,
        trace (_collect_objects fnmatchcase HEADERS Pointer_load scm rev (Some [p]) exclude)
        = EvGetFs rev :: EvFind rev "/" :: t)
  /\ forall x : string,
       x ∈ candidates fnmatchcase scm rev (Some [p]) exclude ->
       x ∈ find (get_fs scm rev) "/" /\ fnmatchcase x p = true.
Proof.
  intros Hwild Hsep.
  assert (Hnone : static_prefix p = None).
  { unfold static_prefix. rewrite bool_decide_eq_false_2 by exact Hwild.
    apply no_sep_no_prefix, Hsep. }
  assert (Hnarrow : narrow_root (Some [p]) = ("/", Some [p])).
  { rewrite narrow_root_run. unfold narrow_root_spec. rewrite Hnone. reflexivity. }
  split; [apply regex_static_prefix, Hnone|]. split; [exact Hnarrow|]. split.
  - rewrite collect_objects_unfold, Hnarrow. eexists. reflexivity.
  - intros x. unfold candidates. rewrite Hnarrow, elem_of_filter_paths.
    intros (Hin & [Hf|(pat & Hpat & Hm)] & _); [discriminate Hf|].
    cbn in Hpat. apply list_elem_of_singleton in Hpat as ->. auto.
Qed.

(** ** The properties on the example repositories *)

(** A check that runs: every failure among the listed candidates is an
    I/O or a parse failure. *)
Lemma failures_checked (f : string -> result (option Pointer)) (l : list string) :
  forallb (fun path => match f path with
                       | Raise e => io_or_parse_failure e
                       | Ok _ => true
                       end) l = true ->
  forall (path : string) (e : exn),
    path ∈ l -> f path = Raise e -> io_or_parse_failure e = true.
Proof.
  intros Hall path e Hin Hf. rewrite forallb_forall in Hall.
  apply list_elem_of_In, Hall in Hin. rewrite Hf in Hin. exact Hin.
Qed.

Lemma get_fetch_url_precedence_witness :
  outcome (get_fetch_url demo_scm None) = Ok "https://overlay/lfs"
  /\ layers demo_scm None !! 0%nat = Some None.
Proof.
  destruct (get_fetch_url_precedence demo_scm None) as [Hout Hcalls]. split.
  - rewrite Hout. vm_compute. reflexivity.
  - apply (Hcalls 1%nat (EvConfigGet Overlay ["lfs"] "url")).
    + reflexivity.
    + compute_done.
    + lia.
Defined.

Lemma missing_overlay_is_empty_witness :
  overlay demo_plain = None
  /\ outcome (get_fetch_url demo_plain None) = Ok "https://origin/repo.git"
  /\ Forall (fun ev => is_overlay_get ev = false) (trace (get_fetch_url demo_plain None)).
Proof.
  assert (Hov : overlay demo_plain = None) by (vm_compute; reflexivity).
  destruct (missing_overlay_is_empty demo_plain None Hov) as (_ & Hout & _ & Hcalls).
  split; [exact Hov|]. split; [|exact Hcalls].
  rewrite Hout. vm_compute. reflexivity.
Defined.

Lemma candidate_failures_are_skipped_witness :
  outcome (_collect_objects glob_match demo_headers demo_load demo_scm "v2" None None) = Ok tt
  /\ yields (trace (_collect_objects glob_match demo_headers demo_load demo_scm "v2" None None))
     = [demo_pointer; demo_pointer].
Proof.
  destruct (candidate_failures_are_skipped glob_match demo_headers demo_load
              demo_scm "v2" None None) as (Hok & Hys & _).
  - intros path e Hin _. revert path e Hin.
    apply failures_checked. vm_compute. reflexivity.
  - split; [exact Hok|]. rewrite Hys. vm_compute. reflexivity.
Defined.

Lemma nothing_missing_no_resolution_witness :
  trace (fetch glob_match demo_headers demo_load demo_full None None (Some ["data/**"]) None)
  = [ EvGetFs "HEAD"; EvFind "HEAD" "data/";
      EvCheckAttr "data/a.bin" "filter" "HEAD"; EvOpen "HEAD" "data/a.bin";
      EvPeek "HEAD" "data/a.bin"; EvLoad "HEAD" "data/a.bin"; EvExists demo_pointer;
      EvCheckAttr "data/b.txt" "filter" "HEAD"; EvOpen "HEAD" "data/b.txt";
      EvPeek "HEAD" "data/b.txt" ]
  /\ outcome (fetch glob_match demo_headers demo_load demo_full None None
                (Some ["data/**"]) None) = Ok tt.
Proof.
  destruct (nothing_missing_no_resolution glob_match demo_headers demo_load
              demo_full None None (Some ["data/**"]) None) as (Ht & _ & Ho).
  - intros p _. reflexivity.
  - split; [rewrite Ht|rewrite Ho]; vm_compute; reflexivity.
Defined.

Lemma transfer_set_invariant_witness :
  ({[ demo_pointer ]} : gset Pointer)
  = missing demo_scm
      (yields (trace (collect_all glob_match demo_headers demo_load demo_scm
                        ["v1"; "v2"] None None)))
  /\ yields (trace (collect_all glob_match demo_headers demo_load demo_scm
                      ["v1"; "v2"] None None))
     = [demo_pointer; demo_pointer; demo_pointer].
Proof.
  destruct (transfer_set_invariant glob_match demo_headers demo_load demo_scm
              (Some ["v1"; "v2"]) None None None
              "https://overlay/lfs" {[ demo_pointer ]}) as (Hset & _).
  - compute_done.
  - split; [exact Hset|]. vm_compute. reflexivity.
Defined.

Lemma invalid_remote_fallback_witness :
  outcome (get_fetch_url demo_bare (Some "https://raw/x.git")) = Raise InvalidRemote
  /\ EvStorageFetch "https://raw/x.git" {[ demo_pointer ]}
     ∈ trace (fetch glob_match demo_headers demo_load demo_bare None
                (Some "https://raw/x.git") (Some ["*.bin"]) None)
  /\ outcome (fetch glob_match demo_headers demo_load demo_bare None None
                (Some ["*.bin"]) None) = Raise InvalidRemote.
Proof.
  assert (Hne : missing demo_bare
                  (yields (trace (collect_all glob_match demo_headers demo_load demo_bare
                                    (effective_revs None) (Some ["*.bin"]) None))) <> ∅)
    by compute_done.
  assert (Hok : outcome (collect_all glob_match demo_headers demo_load demo_bare
                           (effective_revs None) (Some ["*.bin"]) None) = Ok tt)
    by (vm_compute; reflexivity).
  assert (Hraw : outcome (get_fetch_url demo_bare (Some "https://raw/x.git"))
                 = Raise InvalidRemote) by (vm_compute; reflexivity).
  assert (Hnone : outcome (get_fetch_url demo_bare None) = Raise InvalidRemote)
    by (vm_compute; reflexivity).
  split; [exact Hraw|]. split.
  - destruct (invalid_remote_fallback glob_match demo_headers demo_load demo_bare None
                (Some "https://raw/x.git") (Some ["*.bin"]) None Hok Hne Hraw)
      as [Hgiven _].
    destruct (Hgiven eq_refl) as (r & Hr & Ht & _). injection Hr as <-.
    rewrite Ht. compute_done.
  - destruct (invalid_remote_fallback glob_match demo_headers demo_load demo_bare None
                None (Some ["*.bin"]) None Hok Hne Hnone)
      as [_ Hnot].
    apply Hnot. reflexivity.
Defined.

Lemma wildcard_before_separator_witness :
  narrow_root (Some ["da*ta/x"]) = ("/", Some ["da*ta/x"])
  /\ re_match _ROOT_PATH_PREFIX_REGEX "*.bin" = None.
Proof.
  split.
  - apply (wildcard_before_separator glob_match demo_headers demo_load demo_scm "v1" None
             "da*ta/x"); [vm_compute; discriminate | reflexivity].
  - apply (wildcard_before_separator glob_match demo_headers demo_load demo_scm "v1" None
             "*.bin"); [vm_compute; discriminate | reflexivity].
Defined.

(** The claim that each pointer is checked once fails when two revisions,
    or two paths of a revision, hold the same pointer: the storage is asked
    three times about the one pointer of [v1] and [v2]. *)
Lemma exists_called_once_claim_fails :
  count_occ Pointer_eq_dec
    (exists_calls (trace (fetch glob_match demo_headers demo_load demo_scm
                            (Some ["v1"; "v2"]) None None None)))
    demo_pointer = 3%nat
  /\ ~ NoDup (exists_calls (trace (fetch glob_match demo_headers demo_load demo_scm
                                     (Some ["v1"; "v2"]) None None None))).
Proof.
  split; [vm_compute; reflexivity|].
  intros H.
  assert (E : exists_calls (trace (fetch glob_match demo_headers demo_load demo_scm
                                     (Some ["v1"; "v2"]) None None None))
              = [demo_pointer; demo_pointer; demo_pointer]) by (vm_compute; reflexivity).
  rewrite E in H. inversion H as [|? ? Hnin _]. apply Hnin. left.
Qed.
(** * Further properties *)

(** ** Endpoint resolution *)

Lemma first_present_none {A} (l : list (option A)) :
  first_present l = None <-> Forall (fun o => o = None) l.
Proof.
  induction l as [|[a|] l IH]; cbn.
  - split; [constructor|reflexivity].
  - split; [discriminate|]. intros H. inversion H; discriminate.
  - rewrite IH. split; [intros H; constructor; [reflexivity|exact H]|].
    intros H. inversion H; assumption.
Qed.

(** X1. [get_fetch_url] fails with no other exception than
    [InvalidRemote], and then every one of the five layers is absent and
    its last call is [get_remote_url] on the resolved remote name:
    [KeyError], [FileNotFoundError], [SCMError] and the assertion never
    leave it. *)
Theorem get_fetch_url_failure (scm : Git) (remote : option string) (e : exn) :
  outcome (get_fetch_url scm remote) = Raise e ->
  e = InvalidRemote
  /\ Forall (fun layer => layer = None) (layers scm remote)
  /\ exists calls : list Event,
       trace (get_fetch_url scm remote)
       = calls ++ [EvGetRemoteUrl (resolved_remote scm remote)].
Proof.
  rewrite get_fetch_url_run. cbn [outcome snd trace fst]. intros Hfail.
  unfold resolution_trace, layers in *. cbn zeta in *. cbn [first_present] in Hfail.
  destruct (git_config scm !! (["lfs"], "url")); [discriminate Hfail|].
  destruct (overlay_get scm ["lfs"] "url"); [discriminate Hfail|].
  destruct (git_config scm !! (["remote"; resolved_remote scm remote], "lfsurl"));
    [discriminate Hfail|].
  destruct (overlay_get scm ["remote"; resolved_remote scm remote] "lfsurl");
    [discriminate Hfail|].
  destruct (remote_urls scm !! resolved_remote scm remote); [discriminate Hfail|].
  injection Hfail as <-. split; [reflexivity|]. split; [repeat constructor|].
  eexists. rewrite !app_comm_cons, !(assoc_L (++)). reflexivity.
Qed.

(** X2. When [lfs.url] is set in the primary configuration,
    [get_fetch_url] returns it after reading that key alone: whatever the
    remote asked for, it neither opens [.lfsconfig] nor settles a remote
    name nor asks for the URL of a remote. *)
Theorem primary_lfs_url_wins (scm : Git) (remote : option string) (url : string) :
  git_config scm !! (["lfs"], "url") = Some url ->
  get_fetch_url scm remote
  = ([EvGetConfig None; EvConfigGet Primary ["lfs"] "url"], Ok url).
Proof.
  intros Hurl. rewrite get_fetch_url_run.
  unfold resolution_trace, layers. cbn zeta. rewrite Hurl. reflexivity.
Qed.

Lemma resolved_remote_given (scm : Git) (remote : option string) :
  truthy_str remote = true -> remote = Some (resolved_remote scm remote).
Proof. destruct remote as [[|c r]|]; cbn; try discriminate; reflexivity. Qed.

Lemma given_remote_calls (scm : Git) (remote : option string) (ev : Event) :
  truthy_str remote = true ->
  ev ∈ resolution_trace scm remote ->
  ev <> EvActiveBranchRemote /\ ev <> EvConfigGet Primary ["remote"] "lfsdefault".
Proof.
  unfold resolution_trace, remote_calls. cbn zeta. intros Hgiven Hin. rewrite Hgiven in Hin.
  destruct (git_config scm !! (["lfs"], "url")), (overlay scm),
    (overlay_get scm ["lfs"] "url"),
    (git_config scm !! (["remote"; resolved_remote scm remote], "lfsurl")),
    (overlay_get scm ["remote"; resolved_remote scm remote] "lfsurl");
    cbn in Hin; split_elem Hin;
    repeat match goal with H : _ \/ _ |- _ => destruct H end;
    try contradiction; subst ev; split; discriminate.
Qed.

(** With a remote given, the endpoint is never a failure. *)
Lemma endpoint_given (scm : Git) (remote : option string) :
  truthy_str remote = true ->
  exists url, endpoint scm remote = Ok url
              /\ Some url = first_present (layers scm remote ++ [remote]).
Proof.
  intros Hgiven. unfold endpoint, layers. cbn zeta. rewrite Hgiven.
  destruct remote as [r|]; [|discriminate Hgiven].
  cbn [app first_present default].
  destruct (git_config scm !! (["lfs"], "url")) as [u|]; [eauto|].
  destruct (overlay_get scm ["lfs"] "url") as [u|]; [eauto|].
  destruct (git_config scm !! _) as [u|]; [eauto|].
  destruct (overlay_get scm _ "lfsurl") as [u|]; [eauto|].
  destruct (remote_urls scm !! _) as [u|]; eauto.
Qed.

(** X3. With a remote given by the caller, [get_fetch_url] uses that name
    as it is: it does not ask for the tracked remote of the active branch
    and does not read [remote.lfsdefault], and its run is the same whatever
    remote the active branch tracks. *)
Theorem given_remote_is_used (scm : Git) (remote : option string) :
  truthy_str remote = true ->
  remote = Some (resolved_remote scm remote)
  /\ (EvActiveBranchRemote ∉ trace (get_fetch_url scm remote))
  /\ (EvConfigGet Primary ["remote"] "lfsdefault" ∉ trace (get_fetch_url scm remote))
  /\ forall tracked : option string,
       get_fetch_url (with_tracked scm tracked) remote = get_fetch_url scm remote.
Proof.
  intros Hgiven. split; [apply resolved_remote_given, Hgiven|].
  assert (Hcalls : forall ev,
            ev ∈ trace (get_fetch_url scm remote) ->
            ev <> EvActiveBranchRemote
            /\ ev <> EvConfigGet Primary ["remote"] "lfsdefault").
  { rewrite get_fetch_url_run. cbn [trace fst].
    intros ev. apply given_remote_calls, Hgiven. }
  split; [intros Hin; apply Hcalls in Hin as [H _]; apply H; reflexivity|].
  split; [intros Hin; apply Hcalls in Hin as [_ H]; apply H; reflexivity|].
  intros tracked. rewrite !get_fetch_url_run.
  assert (Hname : resolved_remote (with_tracked scm tracked) remote
                  = resolved_remote scm remote).
  { destruct remote as [[|c r]|]; try discriminate Hgiven. reflexivity. }
  unfold resolution_trace, layers, remote_calls, overlay_get, overlay, lfsconfig_path.
  cbn zeta. rewrite Hname, Hgiven. reflexivity.
Qed.

(** ** Arguments that are falsy *)

Lemma for_each_ext {A S} (body1 body2 : S -> A -> M S) (l : list A) :
  (forall s x, body1 s x = body2 s x) ->
  forall s, for_each l body1 s = for_each l body2 s.
Proof.
  intros Hb. induction l as [|x l IH]; intros s; cbn [for_each]; [reflexivity|].
  rewrite Hb. destruct (body2 s x) as [t [s'|e]]; cbn [bind]; [|reflexivity].
  rewrite IH. reflexivity.
Qed.

Section Falsy.

Variable fnmatchcase : string -> string -> bool.
Variable HEADERS : list bytes.
Variable Pointer_load : Reader -> result Pointer.

Lemma filter_paths_given (paths : list string) (include exclude : option (list string)) :
  _filter_paths fnmatchcase paths (given_list include) (given_list exclude)
  = _filter_paths fnmatchcase paths include exclude.
Proof.
  destruct include as [[|p l]|], exclude as [[|q m]|]; reflexivity.
Qed.

Lemma collect_objects_given (scm : Git) (rev : string)
    (include exclude : option (list string)) :
  _collect_objects fnmatchcase HEADERS Pointer_load scm rev
    (given_list include) (given_list exclude)
  = _collect_objects fnmatchcase HEADERS Pointer_load scm rev include exclude.
Proof.
  unfold _collect_objects.
  destruct include as [[|p l]|], exclude as [[|q m]|];
    cbn [given_list truthy_list]; try reflexivity;
    destruct (narrow_root (Some (p :: l))) as [root include']; reflexivity.
Qed.

(** X4. [fetch] treats an empty list of revisions, an empty remote string
    and empty pattern lists as arguments that were not given: it runs as
    with [None] in their place, and without revisions it runs on [HEAD]. *)
Theorem falsy_arguments_are_absent (scm : Git) (revs : option (list string))
    (remote : option string) (include exclude : option (list string)) :
  fetch fnmatchcase HEADERS Pointer_load scm revs remote include exclude
  = fetch fnmatchcase HEADERS Pointer_load scm
      (Some (effective_revs revs)) (given_str remote)
      (given_list include) (given_list exclude)
  /\ effective_revs (given_list revs) = effective_revs revs
  /\ effective_revs None = ["HEAD"].
Proof.
  split; [|split; [destruct revs as [[|r l]|]; reflexivity|reflexivity]].
  rewrite !fetch_run. cbn zeta.
  assert (Hrevs : effective_revs (Some (effective_revs revs)) = effective_revs revs).
  { destruct revs as [[|r l]|]; reflexivity. }
  assert (Hcoll : collect_all fnmatchcase HEADERS Pointer_load scm (effective_revs revs)
                    (given_list include) (given_list exclude)
                  = collect_all fnmatchcase HEADERS Pointer_load scm (effective_revs revs)
                      include exclude).
  { unfold collect_all. apply for_each_ext. intros _ rev. apply collect_objects_given. }
  assert (Hend : endpoint scm (given_str remote) = endpoint scm remote
                 /\ resolution_trace scm (given_str remote) = resolution_trace scm remote).
  { destruct remote as [[|c r]|]; split; reflexivity. }
  destruct Hend as [Hend Hres]. rewrite Hrevs, Hcoll, Hend, Hres. reflexivity.
Qed.

End Falsy.

(** ** Path filtering *)

Section FilterMore.

Variable fnmatchcase : string -> string -> bool.

(** Two results of [_filter_paths] with the same members are the same
    paths, each once; only the order in which the two sets are iterated
    is left open. *)
Lemma filter_paths_perm (paths1 paths2 : list string)
    (include1 include2 exclude1 exclude2 : option (list string)) :
  (forall x, x ∈ _filter_paths fnmatchcase paths1 include1 exclude1
             <-> x ∈ _filter_paths fnmatchcase paths2 include2 exclude2) ->
  _filter_paths fnmatchcase paths1 include1 exclude1
  ≡ₚ _filter_paths fnmatchcase paths2 include2 exclude2.
Proof.
  intros H. apply NoDup_Permutation; [apply NoDup_elements|apply NoDup_elements|exact H].
Qed.


(** X6. The result of [_filter_paths] depends on the paths and on the
    patterns as sets only: neither the order nor the repetition of the
    input paths, of the include patterns or of the exclude patterns changes
    the paths it yields. *)
Theorem filter_paths_sets_only (paths1 paths2 : list string)
    (include1 include2 exclude1 exclude2 : list string) :
  (forall x, x ∈ paths1 <-> x ∈ paths2) ->
  (forall pat, pat ∈ include1 <-> pat ∈ include2) ->
  (forall pat, pat ∈ exclude1 <-> pat ∈ exclude2) ->
  _filter_paths fnmatchcase paths1 (Some include1) (Some exclude1)
  ≡ₚ _filter_paths fnmatchcase paths2 (Some include2) (Some exclude2).
Proof.
  intros Hp Hi He. apply filter_paths_perm. intros x.
  rewrite !elem_of_filter_paths. cbn [default].
  assert (Ht : truthy_list (Some include1) = truthy_list (Some include2)).
  { destruct include1 as [|a l], include2 as [|b m]; try reflexivity.
    - exfalso. eapply not_elem_of_nil. apply Hi. left.
    - exfalso. eapply not_elem_of_nil. apply Hi. left. }
  rewrite Ht, Hp. split; intros (Hx & Hinc & Hexc); split; try exact Hx; split.
  - destruct Hinc as [H|(pat & Hin & Hm)]; [left; exact H|].
    right. exists pat. split; [apply Hi, Hin|exact Hm].
  - intros pat Hin. apply Hexc, He, Hin.
  - destruct Hinc as [H|(pat & Hin & Hm)]; [left; exact H|].
    right. exists pat. split; [apply Hi, Hin|exact Hm].
  - intros pat Hin. apply Hexc, He, Hin.
Qed.


(** X8. An empty include list is no restriction: it selects what [None]
    selects, and every path selected with some list of include patterns is
    selected with the empty list. *)
Theorem empty_include_is_everything (paths : list string)
    (include exclude : option (list string)) (x : string) :
  _filter_paths fnmatchcase paths (Some []) exclude
  = _filter_paths fnmatchcase paths None exclude
  /\ (x ∈ _filter_paths fnmatchcase paths include exclude ->
      x ∈ _filter_paths fnmatchcase paths (Some []) exclude).
Proof.
  split; [reflexivity|].
  rewrite !elem_of_filter_paths. cbn [truthy_list].
  intros (Hx & _ & He). auto.
Qed.

End FilterMore.

(** ** The collector *)

Lemma elem_of_yields (t : list Event) (p : Pointer) : p ∈ yields t <-> EvYield p ∈ t.
Proof.
  unfold yields. rewrite list_elem_of_omap. split.
  - intros (ev & Hin & Hev). destruct ev; try discriminate Hev.
    injection Hev as ->. exact Hin.
  - intros Hin. exists (EvYield p). auto.
Qed.

Lemma for_each_unit_trace {A} (body : unit -> A -> M unit) (l : list A) (ev : Event) :
  ev ∈ trace (for_each l body tt) -> exists x, x ∈ l /\ ev ∈ trace (body tt x).
Proof.
  induction l as [|x l IH]; cbn [for_each].
  - intros H. inversion H.
  - rewrite bind_run. destruct (outcome (body tt x)) as [[]|e]; cbn [trace fst].
    + intros H. apply elem_of_app in H as [H|H].
      * exists x. split; [left|exact H].
      * destruct (IH H) as (y & Hy & Hev). exists y. split; [right; exact Hy|exact Hev].
    + intros H. exists x. split; [left|exact H].
Qed.


Section CollectMore.

Variable fnmatchcase : string -> string -> bool.
Variable HEADERS : list bytes.
Variable Pointer_load : Reader -> result Pointer.

(** What the calls of one visit tell. *)
Lemma visit_calls (scm : Git) (rev path : string) (ev : Event) :
  ev ∈ trace (visit HEADERS Pointer_load scm rev path) ->
  match ev with
  | EvCheckAttr q attr r => q = lstrip_sep path /\ attr = "filter" /\ r = rev
  | EvOpen r q | EvPeek r q =>
      r = rev /\ q = path
      /\ check_attr scm (lstrip_sep path) "filter" rev = Some "lfs"
  | EvLoad r q =>
      r = rev /\ q = path
      /\ check_attr scm (lstrip_sep path) "filter" rev = Some "lfs"
      /\ exists fobj data,
           fs_open (get_fs scm rev) path = Ok fobj
           /\ peek fobj 100 = Ok data
           /\ existsb (fun header => String.prefix header data) HEADERS = true
  | EvYield p =>
      check_attr scm (lstrip_sep path) "filter" rev = Some "lfs"
      /\ candidate_outcome HEADERS Pointer_load (get_fs scm rev) path = Ok (Some p)
  | _ => False
  end.
Proof.
  unfold visit, candidate_outcome, read_candidate. cbn [bind call].
  destruct (bool_decide (check_attr scm (lstrip_sep path) "filter" rev = Some "lfs"))
    eqn:Eattr.
  2:{ cbn. intros H. apply list_elem_of_singleton in H as ->. auto. }
  apply bool_decide_eq_true_1 in Eattr.
  destruct (fs_open (get_fs scm rev) path) as [fobj|e]; cbn.
  2:{ destruct (isinstance e ValueError || (isinstance e OSError || false)); cbn;
        intros H; split_elem H;
        repeat match goal with H : _ \/ _ |- _ => destruct H end;
        try contradiction; subst ev; auto. }
  destruct (peek fobj 100) as [data|e] eqn:Epeek; cbn.
  2:{ destruct (isinstance e ValueError || (isinstance e OSError || false)); cbn;
        intros H; split_elem H;
        repeat match goal with H : _ \/ _ |- _ => destruct H end;
        try contradiction; subst ev; auto. }
  destruct (existsb (fun header => String.prefix header data) HEADERS) eqn:Ehdr; cbn.
  2:{ intros H; split_elem H;
        repeat match goal with H : _ \/ _ |- _ => destruct H end;
        try contradiction; subst ev; auto. }
  destruct (Pointer_load fobj) as [p|e]; cbn.
  - intros H; split_elem H;
      repeat match goal with H : _ \/ _ |- _ => destruct H end;
      try contradiction; subst ev; cbn; repeat split; eauto 10.
  - destruct (isinstance e ValueError || (isinstance e OSError || false)); cbn;
      intros H; split_elem H;
      repeat match goal with H : _ \/ _ |- _ => destruct H end;
      try contradiction; subst ev; cbn; repeat split; eauto 10.
Qed.

Lemma collect_calls (scm : Git) (rev : string) (include exclude : option (list string))
    (ev : Event) :
  ev ∈ trace (_collect_objects fnmatchcase HEADERS Pointer_load scm rev include exclude) ->
  ev = EvGetFs rev
  \/ ev = EvFind rev (fst (narrow_root include))
  \/ exists path,
       path ∈ candidates fnmatchcase scm rev include exclude
       /\ ev ∈ trace (visit HEADERS Pointer_load scm rev path).
Proof.
  rewrite collect_objects_unfold. cbn [trace fst]. intros H.
  apply elem_of_cons in H as [->|H]; [auto|].
  apply elem_of_cons in H as [->|H]; [auto|].
  right. right. apply for_each_unit_trace in H. exact H.
Qed.

(** X9. Every pointer [_collect_objects] yields is the pointer parsed from
    a candidate path whose [filter] attribute is [lfs] and whose first
    bytes carry a recognised signature: nothing is yielded for a path with
    another attribute, for a path that [_filter_paths] drops, or for a
    candidate whose reading or parsing failed. *)
Theorem yields_are_lfs_pointers (scm : Git) (rev : string)
    (include exclude : option (list string)) (p : Pointer) :
  p ∈ yields (trace (_collect_objects fnmatchcase HEADERS Pointer_load
                       scm rev include exclude)) ->
  exists path : string,
    path ∈ candidates fnmatchcase scm rev include exclude
    /\ check_attr scm (lstrip_sep path) "filter" rev = Some "lfs"
    /\ candidate_outcome HEADERS Pointer_load (get_fs scm rev) path = Ok (Some p).
Proof.
  rewrite elem_of_yields. intros H.
  apply collect_calls in H as [H|[H|(path & Hin & H)]]; try discriminate H.
  apply visit_calls in H. exists path. tauto.
Qed.

(** X10. [_collect_objects] opens a blob only for a candidate path whose
    [filter] attribute is [lfs], and calls [Pointer.load] only after the
    peeked bytes matched a signature of [HEADERS]; every blob it touches
    belongs to the revision it was called for. *)
Theorem blobs_read_only_when_lfs (scm : Git) (rev : string)
    (include exclude : option (list string)) (r path : string) :
  ((EvOpen r path
    ∈ trace (_collect_objects fnmatchcase HEADERS Pointer_load scm rev include exclude)) ->
   r = rev
   /\ path ∈ candidates fnmatchcase scm rev include exclude
   /\ check_attr scm (lstrip_sep path) "filter" rev = Some "lfs")
  /\ ((EvLoad r path
       ∈ trace (_collect_objects fnmatchcase HEADERS Pointer_load scm rev include exclude)) ->
      r = rev
      /\ path ∈ candidates fnmatchcase scm rev include exclude
      /\ exists fobj data,
           fs_open (get_fs scm rev) path = Ok fobj
           /\ peek fobj 100 = Ok data
           /\ existsb (fun header => String.prefix header data) HEADERS = true).
Proof.
  split; intros H;
    apply collect_calls in H as [H|[H|(path' & Hin & H)]]; try discriminate H;
    apply visit_calls in H.
  - destruct H as (-> & -> & Hattr). auto.
  - destruct H as (-> & -> & _ & Hread). auto.
Qed.


End CollectMore.

(** ** The orchestrator *)

Section FetchMore.

Variable fnmatchcase : string -> string -> bool.
Variable HEADERS : list bytes.
Variable Pointer_load : Reader -> result Pointer.

(** When [fetch] transfers, and what. *)
Lemma fetch_transfer_iff (scm : Git) (revs : option (list string)) (remote : option string)
    (include exclude : option (list string)) (url : string) (objects : gset Pointer) :
  let g := collect_all fnmatchcase HEADERS Pointer_load
             scm (effective_revs revs) include exclude in
  EvStorageFetch url objects
  ∈ trace (fetch fnmatchcase HEADERS Pointer_load scm revs remote include exclude)
  <-> outcome g = Ok tt
      /\ objects = missing scm (yields (trace g))
      /\ objects <> ∅
      /\ endpoint scm remote = Ok url.
Proof.
  intros g. rewrite fetch_run. cbn zeta. fold g.
  pose proof (before_transfer fnmatchcase HEADERS Pointer_load
                scm (effective_revs revs) remote include exclude) as Hpre.
  fold g in Hpre.
  assert (Hchk : Forall (fun ev => is_transfer ev = false) (checked (trace g))).
  { apply Forall_app in Hpre as [H _]. exact H. }
  destruct (outcome g) as [[]|e]; cbn [trace fst].
  2:{ split; [intros H; exfalso; exact (no_transfer_in _ _ _ Hchk H)|].
      intros (H & _). discriminate H. }
  destruct (bool_decide (missing scm (yields (trace g)) = ∅)) eqn:Eempty; cbn [trace fst].
  { apply bool_decide_eq_true_1 in Eempty.
    split; [intros H; exfalso; exact (no_transfer_in _ _ _ Hchk H)|].
    intros (_ & -> & Hne & _). contradiction. }
  apply bool_decide_eq_false_1 in Eempty.
  destruct (endpoint scm remote) as [url'|e]; cbn [trace fst].
  2:{ split; [intros H; exfalso; exact (no_transfer_in _ _ _ Hpre H)|].
      intros (_ & _ & _ & H). discriminate H. }
  rewrite (assoc_L (++)), elem_of_app, list_elem_of_singleton. split.
  - intros [H|H]; [exfalso; exact (no_transfer_in _ _ _ Hpre H)|].
    injection H as -> ->. auto.
  - intros (_ & -> & _ & H). injection H as ->. right. reflexivity.
Qed.

(** X12. The set [fetch] transfers depends on the revisions as a set:
    neither the order of the revisions nor a revision given twice changes
    the transfer, which is made from the same endpoint with the same
    objects. *)
Theorem transfer_depends_on_revision_set (scm : Git) (revs1 revs2 : list string)
    (remote : option string) (include exclude : option (list string))
    (url : string) (objects : gset Pointer) :
  (forall rev, rev ∈ revs1 <-> rev ∈ revs2) ->
  EvStorageFetch url objects
  ∈ trace (fetch fnmatchcase HEADERS Pointer_load scm (Some revs1) remote include exclude) ->
  EvStorageFetch url objects
  ∈ trace (fetch fnmatchcase HEADERS Pointer_load scm (Some revs2) remote include exclude).
Proof.
  intros Hrevs. rewrite !fetch_transfer_iff. cbn zeta.
  assert (Heff : forall rev, rev ∈ effective_revs (Some revs1)
                             <-> rev ∈ effective_revs (Some revs2)).
  { destruct revs1 as [|a l], revs2 as [|b m]; cbn; try tauto; try exact Hrevs;
      exfalso; eapply not_elem_of_nil; apply Hrevs; left. }
  intros (Hok & -> & Hne & Hurl).
  assert (Hok2 : outcome (collect_all fnmatchcase HEADERS Pointer_load scm
                            (effective_revs (Some revs2)) include exclude) = Ok tt).
  { apply for_each_unit_all_ok. intros rev Hin.
    apply (for_each_unit_ok _ _ Hok). apply Heff, Hin. }
  assert (Hsame : missing scm (yields (trace (collect_all fnmatchcase HEADERS Pointer_load
                     scm (effective_revs (Some revs2)) include exclude)))
                  = missing scm (yields (trace (collect_all fnmatchcase HEADERS Pointer_load
                     scm (effective_revs (Some revs1)) include exclude)))).
  { apply set_eq. intros p. rewrite !elem_of_missing.
    rewrite (collect_revs_ok_yields _ _ _ _ _ _ _ Hok2 p).
    rewrite (collect_revs_ok_yields _ _ _ _ _ _ _ Hok p).
    split; intros [(rev & Hin & Hp) Hex]; (split; [|exact Hex]);
      exists rev; (split; [apply Heff, Hin|exact Hp]). }
  split; [exact Hok2|]. split; [symmetry; exact Hsame|].
  split; [exact Hne|exact Hurl].
Qed.

(** X13. With a remote given by the caller, a [fetch] whose collection
    ends well and leaves pointers to transfer always reaches the transfer:
    the endpoint is the first present layer of the resolution, else the
    remote string itself, and [fetch] ends as the transfer ends. *)
Theorem given_remote_always_transfers (scm : Git) (revs : option (list string))
    (remote : option string) (include exclude : option (list string)) :
  let g := collect_all fnmatchcase HEADERS Pointer_load
             scm (effective_revs revs) include exclude in
  let run := fetch fnmatchcase HEADERS Pointer_load scm revs remote include exclude in
  truthy_str remote = true ->
  outcome g = Ok tt ->
  missing scm (yields (trace g)) <> ∅ ->
  exists url : string,
    Some url = first_present (layers scm remote ++ [remote])
    /\ EvStorageFetch url (missing scm (yields (trace g))) ∈ trace run
    /\ outcome run = lfs_fetch scm url (missing scm (yields (trace g))).
Proof.
  intros g run Hgiven Hok Hne.
  destruct (endpoint_given scm remote Hgiven) as (url & Hurl & Hfirst).
  exists url. split; [exact Hfirst|].
  subst run. split.
  - apply fetch_transfer_iff. auto.
  - rewrite (fetch_transfers fnmatchcase HEADERS Pointer_load
               scm revs remote include exclude url Hok Hne Hurl).
    reflexivity.
Qed.

(** X14. When [fetch] calls the transfer it calls it once and ends as the
    transfer ends: a failure of the storage leaves [fetch] unchanged, and
    is not retried. *)
Theorem transfer_outcome_is_fetch_outcome (scm : Git) (revs : option (list string))
    (remote : option string) (include exclude : option (list string))
    (url : string) (objects : gset Pointer) :
  EvStorageFetch url objects
  ∈ trace (fetch fnmatchcase HEADERS Pointer_load scm revs remote include exclude) ->
  outcome (fetch fnmatchcase HEADERS Pointer_load scm revs remote include exclude)
  = lfs_fetch scm url objects
  /\ List.filter is_transfer
       (trace (fetch fnmatchcase HEADERS Pointer_load scm revs remote include exclude))
     = [EvStorageFetch url objects].
Proof.
  intros Hin. apply fetch_transfer_iff in Hin as (Hok & -> & Hne & Hurl).
  rewrite (fetch_transfers fnmatchcase HEADERS Pointer_load
             scm revs remote include exclude url Hok Hne Hurl).
  cbn [outcome snd trace fst]. split; [reflexivity|].
  rewrite (assoc_L (++)), List.filter_app. cbn [List.filter is_transfer].
  pose proof (before_transfer fnmatchcase HEADERS Pointer_load
                scm (effective_revs revs) remote include exclude) as Hpre.
  assert (Hnil : forall t, Forall (fun ev => is_transfer ev = false) t ->
                           List.filter is_transfer t = []).
  { induction 1 as [|ev t Hev _ IH]; [reflexivity|]. cbn. rewrite Hev. exact IH. }
  rewrite (Hnil _ Hpre). reflexivity.
Qed.

(** X15. A failure of the collection ends [fetch] with that failure before
    any endpoint resolution: the calls of [fetch] are those of the
    collection up to the failure, with an existence check for each pointer
    yielded before it, and nothing is transferred. *)
Theorem collection_failure_stops_fetch (scm : Git) (revs : option (list string))
    (remote : option string) (include exclude : option (list string)) (e : exn) :
  let g := collect_all fnmatchcase HEADERS Pointer_load
             scm (effective_revs revs) include exclude in
  outcome g = Raise e ->
  fetch fnmatchcase HEADERS Pointer_load scm revs remote include exclude
  = (checked (trace g), Raise e)
  /\ Forall (fun ev => is_resolution ev = false /\ is_transfer ev = false)
       (checked (trace g)).
Proof.
  intros g Hfail. rewrite fetch_run. cbn zeta. fold g. rewrite Hfail.
  split; [reflexivity|]. apply checked_events, collect_revs_events.
Qed.

End FetchMore.

(** ** The root prefix *)

Lemma static_prefix_shape (p : string) :
  forall root : string,
    static_prefix p = Some root ->
    String.prefix root p = true
    /\ static_run root = root
    /\ (root = p \/ endswith_sep root = true).
Proof.
  induction p as [|c p IH]; intros root.
  - cbn. intros H. injection H as <-. auto.
  - rewrite static_prefix_cons. destruct (is_wildcard c) eqn:Ew; [discriminate|].
    destruct (static_prefix p) as [q|].
    + intros H. injection H as <-. destruct (IH q eq_refl) as (Hpre & Hrun & Hend).
      split; [|split].
      * cbn. destruct (ascii_dec c c) as [_|Hc]; [exact Hpre|contradiction].
      * cbn [static_run]. rewrite Ew, Hrun. reflexivity.
      * destruct Hend as [->|Hend]; [left; reflexivity|right].
        destruct q as [|c' q]; [discriminate Hend|exact Hend].
    + destruct (bool_decide (c = "/"%char)) eqn:Ec; [|discriminate].
      apply bool_decide_eq_true_1 in Ec. subst c.
      intros H. injection H as <-. split; [|split].
      * cbn. destruct (ascii_dec "/" "/") as [_|Hc]; [|contradiction].
        destruct p; reflexivity.
      * reflexivity.
      * right. reflexivity.
Qed.

(** X16. When [_ROOT_PATH_PREFIX_REGEX] matches a pattern, its [prefix]
    group is a prefix of the pattern without wildcard character, and it is
    the whole pattern or ends with a separator. *)
Theorem prefix_group_shape (p : string)
    (result : string * list (string * (nat * nat))) :
  re_match _ROOT_PATH_PREFIX_REGEX p = Some result ->
  exists root : string,
    group result "prefix" = Some root
    /\ String.prefix root p = true
    /\ static_run root = root
    /\ (root = p \/ endswith_sep root = true).
Proof.
  intros Hm. destruct (regex_static_prefix p) as [Hg _]. rewrite Hm in Hg.
  destruct (static_prefix p) as [root|] eqn:Es.
  - exists root. split; [exact Hg|]. apply static_prefix_shape, Es.
  - exfalso. apply regex_static_prefix in Es. rewrite Es in Hm. discriminate Hm.
Qed.

Lemma static_run_app (d s : string) :
  static_run d = d -> static_run (d +:+ s) = d +:+ static_run s.
Proof.
  induction d as [|c d IH]; [reflexivity|].
  cbn [static_run]. destruct (is_wildcard c) eqn:Ew; [discriminate|].
  intros H. injection H as H.
  change (String c d +:+ s) with (String c (d +:+ s)).
  cbn [static_run]. rewrite Ew, (IH H). reflexivity.
Qed.

Lemma upto_last_sep_dir (d : string) : upto_last_sep (d +:+ "/") = Some (d +:+ "/").
Proof.
  induction d as [|c d IH]; [reflexivity|].
  change (String c d +:+ "/") with (String c (d +:+ "/")).
  cbn [upto_last_sep]. rewrite IH. reflexivity.
Qed.

Lemma rstrip_sep_dir (d : string) : rstrip_sep (d +:+ "/") = rstrip_sep d.
Proof.
  induction d as [|c d IH]; [reflexivity|].
  change (String c d +:+ "/") with (String c (d +:+ "/")).
  cbn [rstrip_sep]. rewrite IH. reflexivity.
Qed.

Lemma string_app_length (s t : string) :
  String.length (s +:+ t) = (String.length s + String.length t)%nat.
Proof.
  induction s as [|c s IH]; [reflexivity|].
  change (String c s +:+ t) with (String c (s +:+ t)).
  cbn [String.length]. rewrite IH. reflexivity.
Qed.

Lemma string_app_inv_tail (s1 s2 t : string) : s1 +:+ t = s2 +:+ t -> s1 = s2.
Proof.
  revert s2. induction s1 as [|c s1 IH]; intros [|c' s2] H.
  - reflexivity.
  - exfalso. apply (f_equal String.length) in H.
    rewrite !string_app_length in H. cbn in H. lia.
  - exfalso. apply (f_equal String.length) in H.
    rewrite !string_app_length in H. cbn in H. lia.
  - change (String c (s1 +:+ t) = String c' (s2 +:+ t)) in H.
    injection H as -> H. rewrite (IH _ H). reflexivity.
Qed.

(** X17. For a directory name [d] without wildcard character, the single
    include pattern [d/**] makes [d/] the traversal root; include filtering
    is dropped, so that the candidates are the paths found under [d/] that
    no exclude pattern matches, unless [d] itself ends with a separator, in
    which case the pattern is kept. *)
Theorem directory_wildcard_narrows (fnmatchcase : string -> string -> bool)
    (scm : Git) (rev : string) (exclude : option (list string)) (d : string) :
  static_run d = d ->
  narrow_root (Some [d +:+ "/**"])
  = (d +:+ "/", if bool_decide (rstrip_sep d = d) then Some [] else Some [d +:+ "/**"])
  /\ (rstrip_sep d = d ->
      candidates fnmatchcase scm rev (Some [d +:+ "/**"]) exclude
      = _filter_paths fnmatchcase (find (get_fs scm rev) (d +:+ "/")) None exclude).
Proof.
  intros Hd.
  assert (Hrun : static_run (d +:+ "/**") = d +:+ "/").
  { rewrite (static_run_app d "/**" Hd). reflexivity. }
  assert (Hne : d +:+ "/" <> d +:+ "/**").
  { intros H. apply (inj (String.app d)) in H. discriminate H. }
  assert (Hnarrow : narrow_root (Some [d +:+ "/**"])
                    = (d +:+ "/",
                       if bool_decide (rstrip_sep d = d)
                       then Some [] else Some [d +:+ "/**"])).
  { rewrite narrow_root_run. unfold narrow_root_spec, static_prefix.
    rewrite Hrun, (bool_decide_eq_false_2 _ Hne), upto_last_sep_dir, rstrip_sep_dir.
    rewrite (bool_decide_eq_false_2 (d +:+ "/**" = d +:+ "/")) by congruence.
    cbn [orb]. destruct (bool_decide (rstrip_sep d = d)) eqn:Ed.
    - apply bool_decide_eq_true_1 in Ed. rewrite Ed.
      rewrite bool_decide_eq_true_2 by reflexivity. reflexivity.
    - apply bool_decide_eq_false_1 in Ed.
      rewrite bool_decide_eq_false_2; [reflexivity|].
      intros H. apply string_app_inv_tail in H. congruence. }
  split; [exact Hnarrow|].
  intros Hstrip. unfold candidates. rewrite Hnarrow.
  rewrite bool_decide_eq_true_2 by exact Hstrip. reflexivity.
Qed.

(** ** The command line *)

Section CommandLineRun.

Variable fnmatchcase : string -> string -> bool.
Variable HEADERS : list bytes.
Variable Pointer_load : Reader -> result Pointer.

Lemma fetch_calls (scm : Git) (revs : option (list string)) (remote : option string)
    (include exclude : option (list string)) (ev : Event) :
  ev ∈ trace (fetch fnmatchcase HEADERS Pointer_load scm revs remote include exclude) ->
  ev ∈ checked (trace (collect_all fnmatchcase HEADERS Pointer_load
                         scm (effective_revs revs) include exclude))
  \/ ev ∈ resolution_trace scm remote
  \/ is_transfer ev = true.
Proof.
  rewrite fetch_run. cbn zeta.
  destruct (outcome _); cbn [trace fst]; [|auto].
  destruct (bool_decide _); cbn [trace fst]; [auto|].
  destruct (endpoint scm remote); cbn [trace fst]; intros H; split_elem H;
    repeat match goal with H : _ \/ _ |- _ => destruct H end;
    try contradiction; subst; auto.
Qed.

Lemma elem_of_checked (t : list Event) (ev : Event) :
  ev ∈ checked t ->
  ev ∈ t \/ exists p, ev = EvExists p /\ EvYield p ∈ t.
Proof.
  unfold checked. rewrite list_elem_of_fmap. intros (ev' & -> & Hin).
  destruct ev'; eauto.
Qed.

(** X18. The command line hands its [remote] argument, ["origin"] when
    there is none, to [fetch] as a given remote, and no pattern: for a
    remote argument that is not the empty string the run neither asks for
    the tracked remote of the active branch nor reads [remote.lfsdefault],
    every traversal starts at the tree root of one of the revisions asked
    for ([HEAD] when there is none), and a run whose collection ends well
    with pointers to transfer ends as the transfer ends. *)
Theorem command_line_run (scm : Git) (remote : option string) (refs : list string) :
  let g := collect_all fnmatchcase HEADERS Pointer_load scm (args_refs refs) None None in
  let run := main fnmatchcase HEADERS Pointer_load scm remote refs in
  remote <> Some "" ->
  (EvActiveBranchRemote ∉ trace run)
  /\ (EvConfigGet Primary ["remote"] "lfsdefault" ∉ trace run)
  /\ (forall rev root : string,
        EvFind rev root ∈ trace run -> root = "/" /\ rev ∈ args_refs refs)
  /\ (outcome g = Ok tt ->
      missing scm (yields (trace g)) <> ∅ ->
      exists url : string,
        Some url = first_present (layers scm (Some (args_remote remote))
                                    ++ [Some (args_remote remote)])
        /\ outcome run = lfs_fetch scm url (missing scm (yields (trace g)))).
Proof.
  intros g run Hremote. subst run. unfold main.
  assert (Hgiven : truthy_str (Some (args_remote remote)) = true).
  { destruct remote as [[|c r]|]; try reflexivity. contradiction. }
  assert (Hrevs : effective_revs (Some (args_refs refs)) = args_refs refs).
  { destruct refs; reflexivity. }
  assert (Hcoll : forall ev,
            ev ∈ trace g ->
            match ev with
            | EvFind rev root => root = "/" /\ rev ∈ args_refs refs
            | EvActiveBranchRemote | EvConfigGet _ _ _ => False
            | _ => True
            end).
  { intros ev Hin. subst g. unfold collect_all in Hin.
    apply for_each_unit_trace in Hin as (rev & Hrev & Hin).
    apply collect_calls in Hin as [->|[->|(path & _ & Hin)]]; [exact I|auto|].
    apply visit_calls in Hin. destruct ev; try exact I; contradiction. }
  assert (Hrun : forall ev,
            ev ∈ trace (fetch fnmatchcase HEADERS Pointer_load scm
                          (Some (args_refs refs)) (Some (args_remote remote)) None None) ->
            ev <> EvActiveBranchRemote
            /\ ev <> EvConfigGet Primary ["remote"] "lfsdefault"
            /\ forall rev root, ev = EvFind rev root -> root = "/" /\ rev ∈ args_refs refs).
  { intros ev Hin. apply fetch_calls in Hin. rewrite Hrevs in Hin. fold g in Hin.
    destruct Hin as [Hin|[Hin|Hin]].
    - apply elem_of_checked in Hin as [Hin|(p & -> & _)].
      + apply Hcoll in Hin. destruct ev; try contradiction;
          (split; [discriminate|split; [discriminate|]]);
          intros rev' root' Heq; try discriminate Heq.
        injection Heq as <- <-. exact Hin.
      + split; [discriminate|split; [discriminate|]]. intros rev' root' Heq.
        discriminate Heq.
    - pose proof (resolution_trace_events scm (Some (args_remote remote))) as Hres.
      rewrite Forall_forall in Hres. pose proof Hin as Hin'.
      apply list_elem_of_In, Hres in Hin'.
      destruct (given_remote_calls _ _ _ Hgiven Hin) as [H1 H2].
      split; [exact H1|split; [exact H2|]]. intros rev root ->. discriminate Hin'.
    - destruct ev; try discriminate Hin.
      split; [discriminate|split; [discriminate|]]. intros rev root Heq.
      discriminate Heq. }
  split; [intros Hin; apply Hrun in Hin as (H & _); apply H; reflexivity|].
  split; [intros Hin; apply Hrun in Hin as (_ & H & _); apply H; reflexivity|].
  split; [intros rev root Hin; apply Hrun in Hin as (_ & _ & H); apply H; reflexivity|].
  intros Hok Hne.
  destruct (endpoint_given scm _ Hgiven) as (url & Hurl & Hfirst).
  exists url. split; [exact Hfirst|].
  subst g. rewrite <- Hrevs in Hok, Hne.
  rewrite (fetch_transfers fnmatchcase HEADERS Pointer_load
             scm (Some (args_refs refs)) (Some (args_remote remote)) None None url
             Hok Hne Hurl).
  cbn [outcome snd]. rewrite Hrevs. reflexivity.
Qed.

End CommandLineRun.

(** ** The further properties on the example repositories *)

Lemma get_fetch_url_failure_witness :
  outcome (get_fetch_url demo_bare None) = Raise InvalidRemote
  /\ Forall (fun layer => layer = None) (layers demo_bare None).
Proof.
  assert (Hfail : outcome (get_fetch_url demo_bare None) = Raise InvalidRemote)
    by (vm_compute; reflexivity).
  split; [exact Hfail|].
  apply (get_fetch_url_failure demo_bare None InvalidRemote Hfail).
Defined.

Lemma primary_lfs_url_wins_witness :
  get_fetch_url demo_lfsurl (Some "up")
  = ([EvGetConfig None; EvConfigGet Primary ["lfs"] "url"], Ok "https://primary/lfs").
Proof.
  apply (primary_lfs_url_wins demo_lfsurl (Some "up") "https://primary/lfs").
  vm_compute. reflexivity.
Defined.

Lemma given_remote_is_used_witness :
  (EvActiveBranchRemote ∉ trace (get_fetch_url demo_plain (Some "origin")))
  /\ get_fetch_url (with_tracked demo_plain (Some "up")) (Some "origin")
     = get_fetch_url demo_plain (Some "origin").
Proof.
  destruct (given_remote_is_used demo_plain (Some "origin") eq_refl)
    as (_ & Hnot & _ & Hsame).
  split; [exact Hnot|apply Hsame].
Defined.

Lemma filter_paths_sets_only_witness :
  _filter_paths glob_match ["a.bin"; "b.txt"; "a.bin"]
    (Some ["*.bin"; "*.txt"]) (Some ["b*"; "b*"])
  ≡ₚ _filter_paths glob_match ["b.txt"; "a.bin"]
       (Some ["*.txt"; "*.bin"; "*.txt"]) (Some ["b*"]).
Proof.
  apply (filter_paths_sets_only glob_match); intros x; split; intros H;
    apply list_elem_of_In in H; apply list_elem_of_In; cbn in *; tauto.
Defined.

Lemma empty_include_is_everything_witness :
  "data/a.bin" ∈ _filter_paths glob_match ["data/a.bin"; "readme.md"] (Some []) None.
Proof.
  apply (empty_include_is_everything glob_match ["data/a.bin"; "readme.md"]
           (Some ["*.bin"]) None "data/a.bin").
  compute_done.
Defined.

Lemma yields_are_lfs_pointers_witness :
  exists path : string,
    path ∈ candidates glob_match demo_scm "v1" None None
    /\ check_attr demo_scm (lstrip_sep path) "filter" "v1" = Some "lfs"
    /\ candidate_outcome demo_headers demo_load (get_fs demo_scm "v1") path
       = Ok (Some demo_pointer).
Proof.
  apply (yields_are_lfs_pointers glob_match demo_headers demo_load demo_scm "v1" None None).
  compute_done.
Defined.

Lemma blobs_read_only_when_lfs_witness :
  check_attr demo_scm (lstrip_sep "data/b.txt") "filter" "v1" = Some "lfs"
  /\ exists fobj data,
       fs_open (get_fs demo_scm "v1") "data/a.bin" = Ok fobj
       /\ peek fobj 100 = Ok data
       /\ existsb (fun header => String.prefix header data) demo_headers = true.
Proof.
  split.
  - apply (blobs_read_only_when_lfs glob_match demo_headers demo_load demo_scm "v1"
             None None "v1" "data/b.txt").
    compute_done.
  - apply (blobs_read_only_when_lfs glob_match demo_headers demo_load demo_scm "v1"
             None None "v1" "data/a.bin").
    compute_done.
Defined.


Lemma transfer_depends_on_revision_set_witness :
  EvStorageFetch "https://overlay/lfs" {[ demo_pointer ]}
  ∈ trace (fetch glob_match demo_headers demo_load demo_scm
             (Some ["v2"; "v1"; "v2"]) None None None).
Proof.
  apply (transfer_depends_on_revision_set glob_match demo_headers demo_load demo_scm
           ["v1"; "v2"] ["v2"; "v1"; "v2"] None None None).
  - intros rev. split; intros H; apply list_elem_of_In in H; apply list_elem_of_In;
      cbn in *; tauto.
  - compute_done.
Defined.

Lemma given_remote_always_transfers_witness :
  exists url : string,
    Some url = first_present (layers demo_bare (Some "https://raw/x.git")
                                ++ [Some "https://raw/x.git"])
    /\ EvStorageFetch url {[ demo_pointer ]}
       ∈ trace (fetch glob_match demo_headers demo_load demo_bare None
                  (Some "https://raw/x.git") None None).
Proof.
  assert (Hset : missing demo_bare
                   (yields (trace (collect_all glob_match demo_headers demo_load demo_bare
                                     (effective_revs None) None None)))
                 = {[ demo_pointer ]}) by (vm_compute; reflexivity).
  destruct (given_remote_always_transfers glob_match demo_headers demo_load demo_bare
              None (Some "https://raw/x.git") None None)
    as (url & Hurl & Hin & _).
  - reflexivity.
  - vm_compute. reflexivity.
  - compute_done.
  - exists url. split; [exact Hurl|]. rewrite <- Hset. exact Hin.
Defined.

Lemma transfer_outcome_is_fetch_outcome_witness :
  outcome (fetch glob_match demo_headers demo_load demo_offline None None None None)
  = Raise (OtherError "ConnectionError").
Proof.
  destruct (transfer_outcome_is_fetch_outcome glob_match demo_headers demo_load
              demo_offline None None None None
              "https://overlay/lfs" {[ demo_pointer ]}) as [Hout _].
  - compute_done.
  - rewrite Hout. reflexivity.
Defined.

Lemma collection_failure_stops_fetch_witness :
  fetch glob_match demo_headers demo_load demo_odd None None None None
  = ([EvGetFs "HEAD"; EvFind "HEAD" "/"; EvCheckAttr "data/odd.bin" "filter" "HEAD";
      EvOpen "HEAD" "data/odd.bin"],
     Raise (OtherError "RuntimeError")).
Proof.
  destruct (collection_failure_stops_fetch glob_match demo_headers demo_load
              demo_odd None None None None (OtherError "RuntimeError")) as [Hrun _].
  - vm_compute. reflexivity.
  - rewrite Hrun. vm_compute. reflexivity.
Defined.

Lemma prefix_group_shape_witness :
  exists root : string,
    group ("data/sub/*.bin", [("prefix", (0, 9))]%nat) "prefix" = Some root
    /\ String.prefix root "data/sub/*.bin" = true
    /\ static_run root = root
    /\ (root = "data/sub/*.bin" \/ endswith_sep root = true).
Proof.
  apply (prefix_group_shape "data/sub/*.bin"). vm_compute. reflexivity.
Defined.

Lemma directory_wildcard_narrows_witness :
  narrow_root (Some ["data/sub/**"]) = ("data/sub/", Some [])
  /\ candidates glob_match demo_scm "v2" (Some ["data/**"]) (Some ["*bad*"])
     = _filter_paths glob_match (find (get_fs demo_scm "v2") "data/") None (Some ["*bad*"]).
Proof.
  split.
  - apply (directory_wildcard_narrows glob_match demo_scm "v2" None "data/sub").
    reflexivity.
  - apply (directory_wildcard_narrows glob_match demo_scm "v2" (Some ["*bad*"]) "data");
      reflexivity.
Defined.

Lemma command_line_run_witness :
  (EvActiveBranchRemote ∉ trace (main glob_match demo_headers demo_load demo_scm None []))
  /\ forall rev root : string,
       EvFind rev root ∈ trace (main glob_match demo_headers demo_load demo_scm None []) ->
       root = "/" /\ rev ∈ ["HEAD"].
Proof.
  destruct (command_line_run glob_match demo_headers demo_load demo_scm None [])
    as (Hnot & _ & Hfind & _).
  - discriminate.
  - split; [exact Hnot|exact Hfind].
Defined.
